(** * A shallow embedding of the resilient email service

    Source: [src/services/EmailService.js] (classes [Logger] and
    [EmailService]).

    Conventions of the embedding.
    - Times ([Date] objects, [Date.now()]) and the numeric configuration
      values are integers of type [Z] (milliseconds, counts).
    - The service object is a record [EmailService]; its methods are
      computations in a state-and-exception monad [M], so that [throw],
      [try ... catch] and the mutation of [this] are written as in the
      source.
    - [this.attempts] is a JavaScript [Map]: an association list that keeps
      insertion order, with [Map.set] replacing in place.  The breaker
      registry and the listener registry are [Map]s whose order is never
      observed: they are [gmap]s.
    - The asynchronous drain loop is a coroutine.  Its code between two
      [await]s runs without interruption; the record field [pc] holds the
      point where the loop is suspended, together with the local variables
      that are live there.  The clock, field [clock], stands still during
      such a run and advances between two of them.
    - How a provider's promise settles is an input of the model
      ([SendOutcome]).  So is the identity that [generateId] draws; the
      transition system takes it to be fresh for the ledger.
    - A listener returns or throws; it does not call back into the
      service.
    - Two instrumentation fields, [published] and [delivered], record the
      calls of [emit] and the invocations of listeners. *)

From stdpp Require Import gmap strings list fin_maps.
From Stdlib Require Import ZArith Lia.

Local Open Scope string_scope.
Local Open Scope list_scope.
Local Open Scope Z_scope.

(** ** Data model *)

Inductive EmailStatus :=
  PENDING | QUEUED | SENDING | SENT | FAILED | RATE_LIMITED.

#[global] Instance EmailStatus_eq_dec : EqDecision EmailStatus.
Proof. solve_decision. Defined.

Record EmailData := {
  to : string;
  subject : string;
  body : string;
  from : option string
}.

Module Attempt.
Record t := {
  id : string;
  email : EmailData;
  status : EmailStatus;
  attempts : Z;
  maxAttempts : Z;
  createdAt : Z;
  updatedAt : Z;
  sentAt : option Z;
  messageId : option string;
  provider : option string;
  error : option string
}.

Definition with_status (v : EmailStatus) (a : t) : t :=
  {| id := id a; email := email a; status := v; attempts := attempts a;
     maxAttempts := maxAttempts a; createdAt := createdAt a;
     updatedAt := updatedAt a; sentAt := sentAt a;
     messageId := messageId a; provider := provider a; error := error a |}.

Definition with_attempts (v : Z) (a : t) : t :=
  {| id := id a; email := email a; status := status a; attempts := v;
     maxAttempts := maxAttempts a; createdAt := createdAt a;
     updatedAt := updatedAt a; sentAt := sentAt a;
     messageId := messageId a; provider := provider a; error := error a |}.

Definition with_updatedAt (v : Z) (a : t) : t :=
  {| id := id a; email := email a; status := status a;
     attempts := attempts a; maxAttempts := maxAttempts a;
     createdAt := createdAt a; updatedAt := v; sentAt := sentAt a;
     messageId := messageId a; provider := provider a; error := error a |}.

Definition with_sentAt (v : option Z) (a : t) : t :=
  {| id := id a; email := email a; status := status a;
     attempts := attempts a; maxAttempts := maxAttempts a;
     createdAt := createdAt a; updatedAt := updatedAt a; sentAt := v;
     messageId := messageId a; provider := provider a; error := error a |}.

Definition with_messageId (v : option string) (a : t) : t :=
  {| id := id a; email := email a; status := status a;
     attempts := attempts a; maxAttempts := maxAttempts a;
     createdAt := createdAt a; updatedAt := updatedAt a;
     sentAt := sentAt a; messageId := v; provider := provider a;
     error := error a |}.

Definition with_provider (v : option string) (a : t) : t :=
  {| id := id a; email := email a; status := status a;
     attempts := attempts a; maxAttempts := maxAttempts a;
     createdAt := createdAt a; updatedAt := updatedAt a;
     sentAt := sentAt a; messageId := messageId a; provider := v;
     error := error a |}.

Definition with_error (v : option string) (a : t) : t :=
  {| id := id a; email := email a; status := status a;
     attempts := attempts a; maxAttempts := maxAttempts a;
     createdAt := createdAt a; updatedAt := updatedAt a;
     sentAt := sentAt a; messageId := messageId a;
     provider := provider a; error := v |}.
End Attempt.

Record CircuitBreaker := {
  isOpen : bool;
  failureCount : Z;
  lastFailureTime : option Z;
  halfOpenRetryTime : option Z
}.

Record Config := {
  maxRetries : Z;
  initialDelayMs : Z;
  maxDelayMs : Z;
  backoffMultiplier : Z;
  circuitBreakerThreshold : Z;
  circuitBreakerResetTime : Z;
  rateLimitPerMinute : Z
}.

Record RateLimitState := {
  count : Z;
  resetTime : Z
}.

(** A provider is an opaque capability: the service reads its [name] and
    awaits its [sendEmail]; how that promise settles is an input of the
    model. *)
Record Provider := { name : string }.

Inductive SendOutcome :=
| Resolved (success : bool) (messageId : string)
| Rejected (message : string).

(** *** Logger *)

Inductive LogLevel := INFO | WARN | ERROR.

Inductive LogValue :=
| LStr (s : string)
| LNum (z : Z)
| LNames (l : list string)
| LConfig (c : Config).

Record LogEntry := {
  timestamp : Z;
  level : LogLevel;
  message : string;
  data : list (string * LogValue)
}.

Record Logger := { logs : list LogEntry }.

(** [Logger.log]: push the entry, then drop the oldest one when more than
    100 are kept. *)
Definition Logger_log (now : Z) (lvl : LogLevel) (msg : string)
    (d : list (string * LogValue)) (l : Logger) : Logger :=
  let pushed := logs l ++ [ {| timestamp := now; level := lvl;
                               message := msg; data := d |} ] in
  {| logs := if 100 <? Z.of_nat (length pushed) then tail pushed
             else pushed |}.

Definition Logger_getLogs (l : Logger) : list LogEntry := logs l.

Definition Logger_clearLogs (l : Logger) : Logger := {| logs := [] |}.

(** *** Listeners *)

(** A listener is a JavaScript function: [lid] stands for its identity
    (the [Set] of listeners compares functions by reference), [handler]
    for what a call does: [None] when it returns, [Some msg] when it throws
    an [Error] with that message. *)
Record Listener := {
  lid : nat;
  handler : Attempt.t -> option string
}.

(** *** The suspended drain loop *)

Inductive Continuation :=
| Idle
    (* no drain loop is running *)
| AwaitSend (attempt : Attempt.t) (i : Z) (provider : Provider)
    (rest : list Provider)
    (* [await provider.sendEmail(attempt.email)] in round [i]; [rest] are
       the providers the [for ... of] has not reached yet *)
| AwaitBackoff (attempt : Attempt.t) (i : Z) (armedAt : Z) (delay : Z)
    (* [await new Promise(resolve => setTimeout(resolve, delay))] *)
| AwaitAttempt.
    (* [await this.processEmailAttempt(attempt)] in [processQueue], the
       call having returned *)

(** *** The service object *)

Record EmailService := {
  providers : list Provider;
  config : Config;
  attempts : list (string * Attempt.t);
  circuitBreakers : gmap string CircuitBreaker;
  queue : list string;
  processingQueue : bool;
  logger : Logger;
  eventListeners : gmap string (list Listener);
  rateLimitState : RateLimitState;
  (* environment *)
  clock : Z;
  pc : Continuation;
  (* instrumentation *)
  published : list (string * Attempt.t);
  delivered : list (nat * string * Attempt.t)
}.

Definition set_attempts (v : list (string * Attempt.t)) (s : EmailService) :=
  {| providers := providers s; config := config s; attempts := v;
     circuitBreakers := circuitBreakers s; queue := queue s;
     processingQueue := processingQueue s; logger := logger s;
     eventListeners := eventListeners s;
     rateLimitState := rateLimitState s; clock := clock s; pc := pc s;
     published := published s; delivered := delivered s |}.

Definition set_circuitBreakers (v : gmap string CircuitBreaker)
    (s : EmailService) :=
  {| providers := providers s; config := config s; attempts := attempts s;
     circuitBreakers := v; queue := queue s;
     processingQueue := processingQueue s; logger := logger s;
     eventListeners := eventListeners s;
     rateLimitState := rateLimitState s; clock := clock s; pc := pc s;
     published := published s; delivered := delivered s |}.

Definition set_queue (v : list string) (s : EmailService) :=
  {| providers := providers s; config := config s; attempts := attempts s;
     circuitBreakers := circuitBreakers s; queue := v;
     processingQueue := processingQueue s; logger := logger s;
     eventListeners := eventListeners s;
     rateLimitState := rateLimitState s; clock := clock s; pc := pc s;
     published := published s; delivered := delivered s |}.

Definition set_processingQueue (v : bool) (s : EmailService) :=
  {| providers := providers s; config := config s; attempts := attempts s;
     circuitBreakers := circuitBreakers s; queue := queue s;
     processingQueue := v; logger := logger s;
     eventListeners := eventListeners s;
     rateLimitState := rateLimitState s; clock := clock s; pc := pc s;
     published := published s; delivered := delivered s |}.

Definition set_logger (v : Logger) (s : EmailService) :=
  {| providers := providers s; config := config s; attempts := attempts s;
     circuitBreakers := circuitBreakers s; queue := queue s;
     processingQueue := processingQueue s; logger := v;
     eventListeners := eventListeners s;
     rateLimitState := rateLimitState s; clock := clock s; pc := pc s;
     published := published s; delivered := delivered s |}.

Definition set_eventListeners (v : gmap string (list Listener))
    (s : EmailService) :=
  {| providers := providers s; config := config s; attempts := attempts s;
     circuitBreakers := circuitBreakers s; queue := queue s;
     processingQueue := processingQueue s; logger := logger s;
     eventListeners := v;
     rateLimitState := rateLimitState s; clock := clock s; pc := pc s;
     published := published s; delivered := delivered s |}.

Definition set_rateLimitState (v : RateLimitState) (s : EmailService) :=
  {| providers := providers s; config := config s; attempts := attempts s;
     circuitBreakers := circuitBreakers s; queue := queue s;
     processingQueue := processingQueue s; logger := logger s;
     eventListeners := eventListeners s;
     rateLimitState := v; clock := clock s; pc := pc s;
     published := published s; delivered := delivered s |}.

Definition set_clock (v : Z) (s : EmailService) :=
  {| providers := providers s; config := config s; attempts := attempts s;
     circuitBreakers := circuitBreakers s; queue := queue s;
     processingQueue := processingQueue s; logger := logger s;
     eventListeners := eventListeners s;
     rateLimitState := rateLimitState s; clock := v; pc := pc s;
     published := published s; delivered := delivered s |}.

Definition set_pc (v : Continuation) (s : EmailService) :=
  {| providers := providers s; config := config s; attempts := attempts s;
     circuitBreakers := circuitBreakers s; queue := queue s;
     processingQueue := processingQueue s; logger := logger s;
     eventListeners := eventListeners s;
     rateLimitState := rateLimitState s; clock := clock s; pc := v;
     published := published s; delivered := delivered s |}.

Definition set_published (v : list (string * Attempt.t))
    (s : EmailService) :=
  {| providers := providers s; config := config s; attempts := attempts s;
     circuitBreakers := circuitBreakers s; queue := queue s;
     processingQueue := processingQueue s; logger := logger s;
     eventListeners := eventListeners s;
     rateLimitState := rateLimitState s; clock := clock s; pc := pc s;
     published := v; delivered := delivered s |}.

Definition set_delivered (v : list (nat * string * Attempt.t))
    (s : EmailService) :=
  {| providers := providers s; config := config s; attempts := attempts s;
     circuitBreakers := circuitBreakers s; queue := queue s;
     processingQueue := processingQueue s; logger := logger s;
     eventListeners := eventListeners s;
     rateLimitState := rateLimitState s; clock := clock s; pc := pc s;
     published := published s; delivered := v |}.

(** ** The monad of methods: state and exceptions *)

Inductive Outcome (A : Type) :=
| Ret (a : A)
| Throw (msg : string).
Arguments Ret {A} a.
Arguments Throw {A} msg.

Definition M (A : Type) : Type := EmailService -> Outcome A * EmailService.

Definition ret {A} (a : A) : M A := fun s => (Ret a, s).

Definition throw {A} (msg : string) : M A := fun s => (Throw msg, s).

Definition bind {A B} (m : M A) (k : A -> M B) : M B :=
  fun s => match m s with
           | (Ret a, s') => k a s'
           | (Throw msg, s') => (Throw msg, s')
           end.

(** [try { m } catch (error) { h error.message }]: what [m] did to the
    state before it threw is kept. *)
Definition try_catch {A} (m : M A) (h : string -> M A) : M A :=
  fun s => match m s with
           | (Ret a, s') => (Ret a, s')
           | (Throw msg, s') => h msg s'
           end.

Definition get {A} (f : EmailService -> A) : M A := fun s => (Ret (f s), s).

Definition modify (f : EmailService -> EmailService) : M unit :=
  fun s => (Ret tt, f s).

Notation "x <- m ;; k" := (bind m (fun x => k))
  (at level 100, m at next level, right associativity).
Notation "m ;; k" := (bind m (fun _ => k))
  (at level 100, right associativity).

(** [array.forEach(f)] / [set.forEach(f)]: an exception of [f] ends the
    iteration and propagates. *)
Fixpoint forEach {A} (l : list A) (f : A -> M unit) : M unit :=
  match l with
  | [] => ret tt
  | x :: l' => f x ;; forEach l' f
  end.

(** ** JavaScript [Map] with insertion order *)

Section JsMap.
Context {V : Type}.

Fixpoint Map_get (k : string) (m : list (string * V)) : option V :=
  match m with
  | [] => None
  | (k', v) :: m' => if decide (k = k') then Some v else Map_get k m'
  end.

(** [Map.set]: an existing key keeps its place, a new key goes last. *)
Fixpoint Map_set (k : string) (v : V) (m : list (string * V))
    : list (string * V) :=
  match m with
  | [] => [(k, v)]
  | (k', v') :: m' =>
      if decide (k = k') then (k, v) :: m' else (k', v') :: Map_set k v m'
  end.

Definition Map_values (m : list (string * V)) : list V := map snd m.

Definition Map_keys (m : list (string * V)) : list string := map fst m.
End JsMap.

(** ** Methods of [EmailService] *)

(** [this.logger.info / warn / error (message, data)]. *)
Definition log (lvl : LogLevel) (msg : string)
    (d : list (string * LogValue)) : M unit :=
  modify (fun s => set_logger (Logger_log (clock s) lvl msg d (logger s)) s).

(** *** Event system *)

(** [Set.add]: a listener already present is not added again. *)
Definition Set_add (l : Listener) (ls : list Listener) : list Listener :=
  if existsb (fun l' => Nat.eqb (lid l') (lid l)) ls then ls else ls ++ [l].

Definition Set_delete (l : Listener) (ls : list Listener) : list Listener :=
  List.filter (fun l' => negb (Nat.eqb (lid l') (lid l))) ls.

Definition on (event : string) (listener : Listener) : M unit :=
  modify (fun s =>
    let ls := default [] (eventListeners s !! event) in
    set_eventListeners (<[event := Set_add listener ls]> (eventListeners s)) s).

Definition off (event : string) (listener : Listener) : M unit :=
  modify (fun s =>
    match eventListeners s !! event with
    | Some ls =>
        set_eventListeners
          (<[event := Set_delete listener ls]> (eventListeners s)) s
    | None => s
    end).

(** [listener(data)]: the call is recorded in [delivered]; it returns or
    throws as the handler says. *)
Definition call_listener (event : string) (listener : Listener)
    (d : Attempt.t) : M unit :=
  modify (fun s =>
    set_delivered (delivered s ++ [(lid listener, event, d)]) s) ;;
  match handler listener d with
  | None => ret tt
  | Some msg => throw msg
  end.

Definition emit (event : string) (d : Attempt.t) : M unit :=
  modify (fun s => set_published (published s ++ [(event, d)]) s) ;;
  listeners <- get (fun s => eventListeners s !! event) ;;
  match listeners with
  | Some ls =>
      forEach ls (fun listener =>
        try_catch (call_listener event listener d)
          (fun msg =>
             log ERROR "Event listener error"
               [("event", LStr event); ("error", LStr msg)]))
  | None => ret tt
  end.

(** *** Rate limiting *)

Definition checkRateLimit : M bool :=
  now <- get clock ;;
  st <- get rateLimitState ;;
  (if resetTime st <=? now
   then modify (set_rateLimitState
                  {| count := 0; resetTime := now + 60000 |})
   else ret tt) ;;
  get (fun s => count (rateLimitState s) <? rateLimitPerMinute (config s)).

Definition incrementRateLimit : M unit :=
  modify (fun s =>
    set_rateLimitState
      {| count := count (rateLimitState s) + 1;
         resetTime := resetTime (rateLimitState s) |} s).

(** *** Circuit breakers *)

(** The breaker is an object held by the [Map]: a write to one of its
    fields is a write to the entry of [providerName]. *)
Definition put_breaker (providerName : string) (b : CircuitBreaker)
    : M unit :=
  modify (fun s =>
    set_circuitBreakers (<[providerName := b]> (circuitBreakers s)) s).

Definition isCircuitBreakerOpen (providerName : string) : M bool :=
  found <- get (fun s => circuitBreakers s !! providerName) ;;
  match found with
  | None => ret false
  | Some breaker =>
      now <- get clock ;;
      if isOpen breaker then
        match halfOpenRetryTime breaker with
        | Some retryTime =>
            if retryTime <=? now then
              put_breaker providerName
                {| isOpen := false;
                   failureCount := failureCount breaker;
                   lastFailureTime := lastFailureTime breaker;
                   halfOpenRetryTime := None |} ;;
              log INFO "Circuit breaker half-open"
                [("provider", LStr providerName)] ;;
              ret false
            else ret true
        | None => ret true
        end
      else ret false
  end.

Definition recordProviderSuccess (providerName : string) : M unit :=
  found <- get (fun s => circuitBreakers s !! providerName) ;;
  match found with
  | Some breaker =>
      put_breaker providerName
        {| isOpen := false; failureCount := 0;
           lastFailureTime := None; halfOpenRetryTime := None |}
  | None => ret tt
  end.

Definition recordProviderFailure (providerName : string) : M unit :=
  found <- get (fun s => circuitBreakers s !! providerName) ;;
  match found with
  | None => ret tt
  | Some breaker =>
      now <- get clock ;;
      cfg <- get config ;;
      let failures := failureCount breaker + 1 in
      if circuitBreakerThreshold cfg <=? failures then
        put_breaker providerName
          {| isOpen := true; failureCount := failures;
             lastFailureTime := Some now;
             halfOpenRetryTime :=
               Some (now + circuitBreakerResetTime cfg) |} ;;
        log WARN "Circuit breaker opened"
          [("provider", LStr providerName); ("failureCount", LNum failures)]
      else
        put_breaker providerName
          {| isOpen := isOpen breaker; failureCount := failures;
             lastFailureTime := Some now;
             halfOpenRetryTime := halfOpenRetryTime breaker |}
  end.

(** *** Idempotency *)

(** The condition of the [if] in [findExistingAttempt]. *)
Definition is_duplicate (now : Z) (email : EmailData) (attempt : Attempt.t)
    : bool :=
  bool_decide (to (Attempt.email attempt) = to email)
  && bool_decide (subject (Attempt.email attempt) = subject email)
  && bool_decide (body (Attempt.email attempt) = body email)
  && negb (bool_decide (Attempt.status attempt = FAILED))
  && (now - Attempt.createdAt attempt <? 300000).

Definition findExistingAttempt (email : EmailData) : M (option Attempt.t) :=
  now <- get clock ;;
  m <- get attempts ;;
  ret (find (is_duplicate now email) (Map_values m)).

(** [this.attempts.set(attempt.id, attempt)]. *)
Definition attempts_set (attempt : Attempt.t) : M unit :=
  modify (fun s =>
    set_attempts (Map_set (Attempt.id attempt) attempt (attempts s)) s).

(** *** The dispatcher: [processQueue] and [processEmailAttempt]

    The local variable [attempt] of [processEmailAttempt] is the object
    that the ledger holds under [attempt.id]: a write to one of its fields
    is at once a write to the ledger entry, which [attempts_set] performs
    here.  [suspend] leaves the code at an [await]. *)

Definition suspend (k : Continuation) : M unit := modify (set_pc k).

(** Lines 296-302, then the return to [processQueue]. *)
Definition exhausted (attempt : Attempt.t) : M unit :=
  now <- get clock ;;
  let attempt :=
    Attempt.with_updatedAt now (Attempt.with_status FAILED attempt) in
  attempts_set attempt ;;
  emit "attemptUpdated" attempt ;;
  log ERROR "Email failed after all retries"
    [("attemptId", LStr (Attempt.id attempt))] ;;
  suspend AwaitAttempt.

(** The [for ... of this.providers] of lines 229-277, from the provider at
    the head of [ps] up to the first [await]; [done] is the code after the
    loop. *)
Fixpoint tryProviders (ps : list Provider) (i : Z) (attempt : Attempt.t)
    (done : Attempt.t -> M unit) : M unit :=
  match ps with
  | [] => done attempt
  | provider :: rest =>
      open <- isCircuitBreakerOpen (name provider) ;;
      if open then
        log WARN "Circuit breaker open, skipping provider"
          [("provider", LStr (name provider));
           ("attemptId", LStr (Attempt.id attempt))] ;;
        tryProviders rest i attempt done
      else
        log INFO "Attempting to send email"
          [("provider", LStr (name provider)); ("attempt", LNum (i + 1));
           ("attemptId", LStr (Attempt.id attempt))] ;;
        suspend (AwaitSend attempt i provider rest)
  end.

Definition backoffDelay (cfg : Config) (i : Z) : Z :=
  Z.min (initialDelayMs cfg * backoffMultiplier cfg ^ i) (maxDelayMs cfg).

(** Lines 279-293, then the [i++] of the [for]; [next] is the loop from its
    test on. *)
Definition afterRound (i : Z) (next : Attempt.t -> M unit)
    (attempt : Attempt.t) : M unit :=
  cfg <- get config ;;
  if i <? maxRetries cfg - 1 then
    let delay := backoffDelay cfg i in
    log INFO "All providers failed, retrying after delay"
      [("attemptId", LStr (Attempt.id attempt)); ("delay", LNum delay);
       ("attempt", LNum (i + 1))] ;;
    now <- get clock ;;
    suspend (AwaitBackoff attempt i now delay)
  else next attempt.

(** The [for (let i = ...; i < maxRetries; i++)] of line 222 from its test
    on, with [remaining] iterations to go: [remaining] is
    [maxRetries - i], or 0 when that is negative (see [forRounds]). *)
Fixpoint rounds (remaining : nat) (i : Z) (attempt : Attempt.t) : M unit :=
  match remaining with
  | O => exhausted attempt
  | S remaining' =>
      now <- get clock ;;
      let attempt :=
        Attempt.with_updatedAt now (Attempt.with_attempts (i + 1) attempt) in
      attempts_set attempt ;;
      emit "attemptUpdated" attempt ;;
      ps <- get providers ;;
      tryProviders ps i attempt (afterRound i (rounds remaining' (i + 1)))
  end.

Definition forRounds (i : Z) (attempt : Attempt.t) : M unit :=
  cfg <- get config ;;
  rounds (Z.to_nat (maxRetries cfg - i)) i attempt.

(** [processEmailAttempt(attempt)] up to its first [await]. *)
Definition processEmailAttempt (attempt : Attempt.t) : M unit :=
  let attempt := Attempt.with_status SENDING attempt in
  attempts_set attempt ;;
  emit "attemptUpdated" attempt ;;
  forRounds 0 attempt.

(** The provider's promise has settled: lines 245-276, then the rest of
    the round. *)
Definition afterSend (o : SendOutcome) (attempt : Attempt.t) (i : Z)
    (provider : Provider) (rest : list Provider) : M unit :=
  match o with
  | Resolved true mid =>
      now <- get clock ;;
      let attempt :=
        Attempt.with_provider (Some (name provider))
          (Attempt.with_messageId (Some mid)
             (Attempt.with_sentAt (Some now)
                (Attempt.with_status SENT attempt))) in
      attempts_set attempt ;;
      recordProviderSuccess (name provider) ;;
      incrementRateLimit ;;
      emit "attemptUpdated" attempt ;;
      log INFO "Email sent successfully"
        [("attemptId", LStr (Attempt.id attempt));
         ("provider", LStr (name provider)); ("messageId", LStr mid)] ;;
      suspend AwaitAttempt
  | Resolved false _ =>
      tryProviders rest i attempt (afterRound i (forRounds (i + 1)))
  | Rejected msg =>
      log ERROR "Provider failed to send email"
        [("provider", LStr (name provider));
         ("attemptId", LStr (Attempt.id attempt)); ("error", LStr msg)] ;;
      recordProviderFailure (name provider) ;;
      let attempt := Attempt.with_error (Some msg) attempt in
      attempts_set attempt ;;
      tryProviders rest i attempt (afterRound i (forRounds (i + 1)))
  end.

(** The backoff timer has fired: [i++] and the loop test. *)
Definition afterBackoff (attempt : Attempt.t) (i : Z) : M unit :=
  forRounds (i + 1) attempt.

(** The [try ... catch] of [processQueue] around the processing of one
    attempt. *)
Definition guarded (attemptId : string) (m : M unit) : M unit :=
  try_catch m
    (fun msg =>
       log ERROR "Error processing email attempt"
         [("attemptId", LStr attemptId); ("error", LStr msg)] ;;
       suspend AwaitAttempt).

(** The [while (this.queue.length > 0)] of [processQueue] from its test on,
    [q] being [this.queue], up to the first [await]. *)
Fixpoint drain (q : list string) : M unit :=
  match q with
  | [] =>
      modify (set_processingQueue false) ;;
      suspend Idle
  | attemptId :: q' =>
      modify (set_queue q') ;;
      found <- get (fun s => Map_get attemptId (attempts s)) ;;
      match found with
      | None => drain q'
      | Some attempt => guarded attemptId (processEmailAttempt attempt)
      end
  end.

Definition processQueue : M unit :=
  busy <- get processingQueue ;;
  if busy then ret tt
  else
    modify (set_processingQueue true) ;;
    q <- get queue ;;
    drain q.

(** The drain loop is resumed after [await this.processEmailAttempt]. *)
Definition afterAttempt : M unit :=
  q <- get queue ;;
  drain q.

(** *** Submission *)

(** [sendEmail(email)]; [attemptId] is the value [generateId()] returns.
    [processQueue] is called without [await]: what it throws stays in its
    promise. *)
Definition sendEmail (email : EmailData) (attemptId : string) : M string :=
  existingAttempt <- findExistingAttempt email ;;
  match existingAttempt with
  | Some existing =>
      log WARN "Duplicate email detected"
        [("attemptId", LStr attemptId);
         ("existingId", LStr (Attempt.id existing))] ;;
      ret (Attempt.id existing)
  | None =>
      now <- get clock ;;
      cfg <- get config ;;
      let attempt :=
        {| Attempt.id := attemptId; Attempt.email := email;
           Attempt.status := PENDING; Attempt.attempts := 0;
           Attempt.maxAttempts := maxRetries cfg;
           Attempt.createdAt := now; Attempt.updatedAt := now;
           Attempt.sentAt := None; Attempt.messageId := None;
           Attempt.provider := None; Attempt.error := None |} in
      attempts_set attempt ;;
      emit "attemptCreated" attempt ;;
      allowed <- checkRateLimit ;;
      if negb allowed then
        let attempt :=
          Attempt.with_error (Some "Rate limit exceeded")
            (Attempt.with_status RATE_LIMITED attempt) in
        attempts_set attempt ;;
        emit "attemptUpdated" attempt ;;
        log WARN "Rate limit exceeded" [("attemptId", LStr attemptId)] ;;
        throw "Rate limit exceeded. Please try again later."
      else
        modify (fun s => set_queue (queue s ++ [attemptId]) s) ;;
        let attempt := Attempt.with_status QUEUED attempt in
        attempts_set attempt ;;
        emit "attemptUpdated" attempt ;;
        log INFO "Email queued for sending"
          [("attemptId", LStr attemptId); ("to", LStr (to email))] ;;
        try_catch processQueue (fun _ => ret tt) ;;
        ret attemptId
  end.

(** *** Queries *)

Definition getAttempt (id : string) (s : EmailService) : option Attempt.t :=
  Map_get id (attempts s).

Definition getQueueStatus (s : EmailService) : nat * bool :=
  (length (queue s), processingQueue s).

Definition getRateLimitStatus (s : EmailService) : Z * Z * Z :=
  (count (rateLimitState s), rateLimitPerMinute (config s),
   resetTime (rateLimitState s)).

Definition clearLogs : M unit :=
  modify (fun s => set_logger (Logger_clearLogs (logger s)) s).

(** *** Construction *)

Definition EmailService_new (ps : list Provider) (cfg : Config) (now : Z)
    : EmailService :=
  {| providers := ps;
     config := cfg;
     attempts := [];
     circuitBreakers :=
       foldl (fun m p =>
                <[name p := {| isOpen := false; failureCount := 0;
                               lastFailureTime := None;
                               halfOpenRetryTime := None |}]> m) ∅ ps;
     queue := [];
     processingQueue := false;
     logger :=
       Logger_log now INFO "EmailService initialized"
         [("providers", LNames (map name ps)); ("config", LConfig cfg)]
         {| logs := [] |};
     eventListeners := ∅;
     rateLimitState := {| count := 0; resetTime := now + 60000 |};
     clock := now;
     pc := Idle;
     published := [];
     delivered := [] |}.

Definition defaultConfig : Config :=
  {| maxRetries := 3; initialDelayMs := 1000; maxDelayMs := 10000;
     backoffMultiplier := 2; circuitBreakerThreshold := 5;
     circuitBreakerResetTime := 60000; rateLimitPerMinute := 100 |}.

(** ** The service as a transition system

    One action is one uninterrupted run of JavaScript code: a call of a
    public method by a client, or the resumption of the drain loop at the
    [await] where it is suspended.  [Elapse] lets time pass between two
    such runs.  [generateId] is taken to return an identity that the
    ledger does not hold yet. *)

Inductive Action :=
| Call_sendEmail (email : EmailData) (attemptId : string)
| Call_on (event : string) (listener : Listener)
| Call_off (event : string) (listener : Listener)
| Call_clearLogs
| Elapse (dt : Z)
| SendSettles (o : SendOutcome)
| TimerFires
| AttemptReturns.

Definition exec (a : Action) (s : EmailService) : option EmailService :=
  match a with
  | Call_sendEmail email attemptId =>
      match Map_get attemptId (attempts s) with
      | None => Some (snd (sendEmail email attemptId s))
      | Some _ => None
      end
  | Call_on event listener => Some (snd (on event listener s))
  | Call_off event listener => Some (snd (off event listener s))
  | Call_clearLogs => Some (snd (clearLogs s))
  | Elapse dt => if 0 <=? dt then Some (set_clock (clock s + dt) s) else None
  | SendSettles o =>
      match pc s with
      | AwaitSend attempt i provider rest =>
          Some (snd (guarded (Attempt.id attempt)
                       (afterSend o attempt i provider rest) s))
      | _ => None
      end
  | TimerFires =>
      match pc s with
      | AwaitBackoff attempt i armedAt delay =>
          if armedAt + delay <=? clock s
          then Some (snd (guarded (Attempt.id attempt)
                            (afterBackoff attempt i) s))
          else None
      | _ => None
      end
  | AttemptReturns =>
      match pc s with
      | AwaitAttempt => Some (snd (afterAttempt s))
      | _ => None
      end
  end.

Definition step (s : EmailService) (a : Action) (s' : EmailService) : Prop :=
  exec a s = Some s'.

Fixpoint run (acts : list Action) (s : EmailService) : option EmailService :=
  match acts with
  | [] => Some s
  | a :: acts' =>
      match exec a s with
      | Some s' => run acts' s'
      | None => None
      end
  end.

Inductive reachable (ps : list Provider) (cfg : Config)
    : EmailService -> Prop :=
| reachable_new (now : Z) : reachable ps cfg (EmailService_new ps cfg now)
| reachable_step s a s' :
    reachable ps cfg s -> step s a s' -> reachable ps cfg s'.

(** ** Weakest preconditions

    [wpx m Q E s]: run from [s], the method [m] either returns [a] in a
    state [s'] with [Q a s'], or throws [msg] in a state [s'] with
    [E msg s'].  [wp m Q s] moreover excludes a throw. *)

Definition wpx {A} (m : M A) (Q : A -> EmailService -> Prop)
    (E : string -> EmailService -> Prop) (s : EmailService) : Prop :=
  match m s with
  | (Ret a, s') => Q a s'
  | (Throw msg, s') => E msg s'
  end.

Definition wp {A} (m : M A) (Q : A -> EmailService -> Prop)
    (s : EmailService) : Prop :=
  wpx m Q (fun _ _ => False) s.

(** What the listeners of one [emit] leave in the log: one entry for each
    of them that throws, in order. *)
Definition log_listener_errors (now : Z) (event : string) (d : Attempt.t)
    (ls : list Listener) (l : Logger) : Logger :=
  foldl (fun l listener =>
           match handler listener d with
           | Some msg =>
               Logger_log now ERROR "Event listener error"
                 [("event", LStr event); ("error", LStr msg)] l
           | None => l
           end) l ls.

Definition emitted (event : string) (d : Attempt.t) (s : EmailService)
    : EmailService :=
  let ls := default [] (eventListeners s !! event) in
  set_logger (log_listener_errors (clock s) event d ls (logger s))
    (set_delivered
       (delivered s ++ map (fun l => (lid l, event, d)) ls)
       (set_published (published s ++ [(event, d)]) s)).

(** * Invariants of the reachable states *)

(** The attempt that the suspended drain loop holds in its local
    variable. *)
Definition active (k : Continuation) : option Attempt.t :=
  match k with
  | AwaitSend attempt _ _ _ => Some attempt
  | AwaitBackoff attempt _ _ _ => Some attempt
  | Idle | AwaitAttempt => None
  end.

Definition same_message (e1 e2 : EmailData) : Prop :=
  to e1 = to e2 /\ subject e1 = subject e2 /\ body e1 = body e2.

(** The ledger: keys are unique and are the identities of their attempts,
    no attempt is created in the future, and two attempts for the same
    message that have not failed are a deduplication window apart. *)
Record ledger_ok (now : Z) (m : list (string * Attempt.t)) : Prop := {
  ledger_nodup : NoDup (Map_keys m);
  ledger_ids : forall k a, Map_get k m = Some a -> Attempt.id a = k;
  ledger_past : forall k a, Map_get k m = Some a -> Attempt.createdAt a <= now;
  ledger_unique : forall k1 a1 k2 a2,
    Map_get k1 m = Some a1 -> Map_get k2 m = Some a2 -> k1 <> k2 ->
    same_message (Attempt.email a1) (Attempt.email a2) ->
    Attempt.status a1 <> FAILED -> Attempt.status a2 <> FAILED ->
    300000 <= Z.abs (Attempt.createdAt a1 - Attempt.createdAt a2)
}.

(** The queue holds distinct identities of attempts that are [QUEUED]. *)
Definition queue_ok (m : list (string * Attempt.t)) (q : list string)
    : Prop :=
  NoDup q /\
  forall k, k ∈ q ->
    exists a, Map_get k m = Some a /\ Attempt.status a = QUEUED.

(** An open breaker has reached the threshold and has a resume time. *)
Definition breakers_ok (cfg : Config) (B : gmap string CircuitBreaker)
    : Prop :=
  forall n b, B !! n = Some b -> isOpen b = true ->
    circuitBreakerThreshold cfg <= failureCount b /\
    is_Some (halfOpenRetryTime b).

Definition events_for (k : string) (pub : list (string * Attempt.t))
    : list (string * Attempt.t) :=
  List.filter (fun e => bool_decide (Attempt.id (snd e) = k)) pub.

(** The events of one identity: none before the attempt is in the ledger;
    then one [attemptCreated], carrying the [PENDING] attempt, followed by
    [attemptUpdated] events only.  The last event carries the attempt as
    the ledger has it, except for the attempt [cur] that is being
    processed. *)
Definition events_ok (cur : option string) (m : list (string * Attempt.t))
    (pub : list (string * Attempt.t)) : Prop :=
  forall k,
    match Map_get k m with
    | None => events_for k pub = []
    | Some a =>
        exists a0 us,
          events_for k pub = ("attemptCreated", a0) :: us /\
          Attempt.status a0 = PENDING /\
          Forall (fun e => fst e = "attemptUpdated") us /\
          (cur <> Some k -> snd <$> last (events_for k pub) = Some a)
    end.

(** The drain loop is processing [a] in round [i]: [a] is the ledger's
    entry, it is [SENDING] and no longer queued, and the last event
    published for it differs from it in the [error] field at most. *)
Definition in_flight (s : EmailService) (a : Attempt.t) (i : Z) : Prop :=
  processingQueue s = true /\
  Map_get (Attempt.id a) (attempts s) = Some a /\
  Attempt.status a = SENDING /\
  (Attempt.id a ∉ queue s) /\
  Attempt.attempts a = i + 1 /\
  0 <= i < maxRetries (config s) /\
  exists b,
    snd <$> last (events_for (Attempt.id a) (published s)) = Some b /\
    Attempt.with_error (Attempt.error a) b = a.

Definition pc_ok (s : EmailService) : Prop :=
  match pc s with
  | Idle => processingQueue s = false
  | AwaitSend a i p rest =>
      in_flight s a i /\
      (forall b, circuitBreakers s !! name p = Some b -> isOpen b = false)
  | AwaitBackoff a i armedAt delay =>
      in_flight s a i /\
      delay = backoffDelay (config s) i /\
      i < maxRetries (config s) - 1 /\
      armedAt <= clock s
  | AwaitAttempt => processingQueue s = true
  end.

Record Inv (s : EmailService) : Prop := {
  inv_ledger : ledger_ok (clock s) (attempts s);
  inv_queue : queue_ok (attempts s) (queue s);
  inv_breakers : breakers_ok (config s) (circuitBreakers s);
  inv_events :
    events_ok (Attempt.id <$> active (pc s)) (attempts s) (published s);
  inv_pc : pc_ok s
}.

(** The same, inside a run of the drain loop that holds [a]. *)
Record Disp (a : Attempt.t) (s : EmailService) : Prop := {
  disp_ledger : ledger_ok (clock s) (attempts s);
  disp_queue : queue_ok (attempts s) (queue s);
  disp_breakers : breakers_ok (config s) (circuitBreakers s);
  disp_events : events_ok (Some (Attempt.id a)) (attempts s) (published s);
  disp_busy : processingQueue s = true;
  disp_entry : Map_get (Attempt.id a) (attempts s) = Some a;
  disp_status : Attempt.status a = SENDING;
  disp_dequeued : Attempt.id a ∉ queue s;
  disp_last : exists b,
    snd <$> last (events_for (Attempt.id a) (published s)) = Some b /\
    Attempt.with_error (Attempt.error a) b = a
}.

(** The breaker keeps the provider out: it is open and its resume time, if
    any, lies ahead. *)
Definition blocked (now : Z) (b : CircuitBreaker) : Prop :=
  isOpen b = true /\
  match halfOpenRetryTime b with
  | Some retryTime => now < retryTime
  | None => True
  end.

(** Entries other than [k0] are the same in the ledgers [m] and [m']. *)
Definition others_same (k0 : string) (m m' : list (string * Attempt.t))
    : Prop :=
  forall k, k <> k0 -> Map_get k m' = Map_get k m.

(** An attempt that is neither queued nor being sent is kept as it is. *)
Definition keeps (m m' : list (string * Attempt.t)) : Prop :=
  forall k r, Map_get k m = Some r ->
    Attempt.status r <> QUEUED -> Attempt.status r <> SENDING ->
    Map_get k m' = Some r.

(** What every run of the code establishes from a state with ledger
    [m]. *)
Definition StepPost (m : list (string * Attempt.t))
    : EmailService -> Prop :=
  fun s' => Inv s' /\ keeps m (attempts s').

(** What every run of the drain loop that holds the attempt [k0]
    establishes: the invariant, with the rest of the ledger [m0] as it
    was. *)
Definition DispPost (k0 : string) (m0 : list (string * Attempt.t))
    : unit -> EmailService -> Prop :=
  fun _ s' => Inv s' /\ others_same k0 m0 (attempts s').

(** Between the ledgers [m] and [m'] no attempt has become [SENT], and
    no entry has gone. *)
Definition none_sent (m m' : list (string * Attempt.t)) : Prop :=
  (forall k a, Map_get k m' = Some a -> Attempt.status a = SENT ->
     Map_get k m = Some a) /\
  (forall k, is_Some (Map_get k m) -> is_Some (Map_get k m')).

(** The providers and the configuration of [s'] are those of [s]. *)
Definition same_setup (s s' : EmailService) : Prop :=
  config s' = config s /\ providers s' = providers s.

(** * Run to completion, and the configurations of the test suite *)

Definition is_success (o : SendOutcome) : bool :=
  match o with
  | Resolved true _ => true
  | _ => false
  end.

(** The processing of the attempt in flight, run to its end: the [n]-th
    provider call settles as [answer n] says, and a backoff timer fires
    when its delay has elapsed.  [None]: out of fuel. *)
Fixpoint complete (fuel : nat) (answer : nat -> SendOutcome) (n : nat)
    (s : EmailService) : option (Outcome unit * EmailService) :=
  match fuel with
  | O =>
      match pc s with
      | AwaitSend _ _ _ _ | AwaitBackoff _ _ _ _ => None
      | Idle | AwaitAttempt => Some (Ret tt, s)
      end
  | S fuel' =>
      match pc s with
      | AwaitSend attempt i provider rest =>
          match afterSend (answer n) attempt i provider rest s with
          | (Ret _, s') => complete fuel' answer (S n) s'
          | (Throw msg, s') => Some (Throw msg, s')
          end
      | AwaitBackoff attempt i armedAt delay =>
          match afterBackoff attempt i
                  (set_clock (Z.max (clock s) (armedAt + delay)) s) with
          | (Ret _, s') => complete fuel' answer n s'
          | (Throw msg, s') => Some (Throw msg, s')
          end
      | Idle | AwaitAttempt => Some (Ret tt, s)
      end
  end.

(** Several submissions in a row, with what each of them returns. *)
Fixpoint submitAll (l : list (EmailData * string)) (s : EmailService)
    : list (Outcome string) * EmailService :=
  match l with
  | [] => ([], s)
  | (email, attemptId) :: l' =>
      let (r, s1) := sendEmail email attemptId s in
      let (rs, s2) := submitAll l' s1 in
      (r :: rs, s2)
  end.

(** The configuration and the providers of the test suite. *)
Definition testConfig : Config :=
  {| maxRetries := 3; initialDelayMs := 10; maxDelayMs := 100;
     backoffMultiplier := 2; circuitBreakerThreshold := 2;
     circuitBreakerResetTime := 1000; rateLimitPerMinute := 10 |}.

Definition provider1 : Provider := {| name := "Provider1" |}.
Definition provider2 : Provider := {| name := "Provider2" |}.

Definition testService : EmailService :=
  EmailService_new [provider1; provider2] testConfig 0.

Definition testEmail (recipient : string) : EmailData :=
  {| to := recipient; subject := "Test Subject"; body := "Test Body";
     from := None |}.

(** The eleven submissions of the test "should enforce rate limits". *)
Definition burst : list (EmailData * string) :=
  map (fun n =>
         (testEmail (String.append "test" (String.append n "@example.com")),
          String.append "email_" n))
    ["0"; "1"; "2"; "3"; "4"; "5"; "6"; "7"; "8"; "9"; "10"].

(** One provider and a single round. *)
Definition oneShotConfig : Config :=
  {| maxRetries := 1; initialDelayMs := 10; maxDelayMs := 100;
     backoffMultiplier := 2; circuitBreakerThreshold := 2;
     circuitBreakerResetTime := 1000; rateLimitPerMinute := 10 |}.

Definition oneShotService : EmailService :=
  EmailService_new [provider1] oneShotConfig 0.

(** The message submitted is, up to its sender, [email]; it was created
    less than the deduplication window before [now].  This is
    [is_duplicate] without the test on the status. *)
Definition same_message_in_window (now : Z) (email : EmailData)
    (attempt : Attempt.t) : bool :=
  bool_decide (to (Attempt.email attempt) = to email)
  && bool_decide (subject (Attempt.email attempt) = subject email)
  && bool_decide (body (Attempt.email attempt) = body email)
  && (now - Attempt.createdAt attempt <? 300000).

(** A service whose rate limit is used up. *)
Definition noQuotaConfig : Config :=
  {| maxRetries := 3; initialDelayMs := 10; maxDelayMs := 100;
     backoffMultiplier := 2; circuitBreakerThreshold := 2;
     circuitBreakerResetTime := 1000; rateLimitPerMinute := 0 |}.

Definition noQuotaService : EmailService :=
  EmailService_new [provider1; provider2] noQuotaConfig 0.

(** The attempt with identity [k0] has ended as [FAILED] after [N]
    rounds, and that was the last event published. *)
Definition finished (k0 : string) (N maxA : Z) (s' : EmailService) : Prop :=
  pc s' = AwaitAttempt /\
  exists a',
    Map_get k0 (attempts s') = Some a' /\
    Attempt.status a' = FAILED /\
    Attempt.attempts a' = N /\
    Attempt.maxAttempts a' = maxA /\
    last (published s') = Some ("attemptUpdated", a').

(** The code [m], run from [s] and then to completion under [answer],
    returns every time and ends in such a state. *)
Definition finishes (answer : nat -> SendOutcome) (k0 : string)
    (N maxA : Z) (m : M unit) (s : EmailService) : Prop :=
  forall n, exists s0 fuel s',
    m s = (Ret tt, s0) /\
    complete fuel answer n s0 = Some (Ret tt, s') /\
    finished k0 N maxA s'.

(** A queued attempt of the test service, and providers that always
    fail. *)
Definition queuedAttempt : Attempt.t :=
  {| Attempt.id := "email_0"; Attempt.email := testEmail "test@example.com";
     Attempt.status := QUEUED; Attempt.attempts := 0;
     Attempt.maxAttempts := 3; Attempt.createdAt := 0;
     Attempt.updatedAt := 0; Attempt.sentAt := None;
     Attempt.messageId := None; Attempt.provider := None;
     Attempt.error := None |}.

Definition alwaysFail (n : nat) : SendOutcome :=
  Rejected "provider failure: Network timeout".

(** The state after a run of actions (the state itself if the run is not
    possible). *)
Definition after (acts : list Action) (s : EmailService) : EmailService :=
  default s (run acts s).

(** A message is submitted to the one-shot service, its only delivery
    fails, and it is submitted again. *)
Definition resubmission : list Action :=
  [ Call_sendEmail (testEmail "test@example.com") "email_1";
    SendSettles (Rejected "Provider1 provider failure: Network timeout");
    AttemptReturns;
    Call_sendEmail (testEmail "test@example.com") "email_2" ].

(** A first submission to the service without quota, one second of
    waiting, and the submissions of other clients meanwhile. *)
Definition afterRejection : list Action :=
  [ Elapse 1000;
    Call_sendEmail (testEmail "other@example.com") "email_2";
    Elapse 1000 ].

(** Both providers fail until their breakers open (threshold 2); the
    attempt ends as failed; then the reset interval goes by. *)
Definition tripBreakers : list Action :=
  [ Call_sendEmail (testEmail "test@example.com") "email_1";
    SendSettles (Rejected "Provider1 provider failure: Network timeout");
    SendSettles (Rejected "Provider2 provider failure: Network timeout");
    Elapse 10; TimerFires;
    SendSettles (Rejected "Provider1 provider failure: Network timeout");
    SendSettles (Rejected "Provider2 provider failure: Network timeout");
    Elapse 20; TimerFires;
    AttemptReturns;
    Elapse 1000 ].

(** A submission whose first provider call has failed; the call of the
    second provider is in flight. *)
Definition firstCallFailed : list Action :=
  [ Call_sendEmail (testEmail "test@example.com") "email_1";
    SendSettles (Rejected "Provider1 provider failure: Network timeout") ].

(** The test "should fallback to second provider when first fails". *)
Definition fallback : list Action :=
  [ Call_sendEmail (testEmail "test@example.com") "email_1";
    SendSettles (Rejected "Provider1 provider failure: Network timeout");
    SendSettles (Resolved true "Provider2-1-abc");
    AttemptReturns ].

(** What the dashboard shows of an attempt. *)
Definition summary (s : EmailService) (id : string)
    : option (EmailStatus * Z * option string * option string) :=
  match getAttempt id s with
  | Some a =>
      Some (Attempt.status a, Attempt.attempts a, Attempt.provider a,
            Attempt.error a)
  | None => None
  end.
(** * Reasoning about methods *)

(** ** Rules of the weakest precondition *)

Lemma wp_elim {A} (m : M A) Q s :
  wp m Q s -> exists a s', m s = (Ret a, s') /\ Q a s'.
Proof.
  unfold wp, wpx. destruct (m s) as [[a|msg] s']; [eauto | tauto].
Qed.


Lemma wp_mono {A} (m : M A) (Q Q' : A -> EmailService -> Prop) s :
  wp m Q s -> (forall a s', Q a s' -> Q' a s') -> wp m Q' s.
Proof.
  unfold wp, wpx. destruct (m s) as [[a|msg] s']; auto.
Qed.

Lemma wp_ret {A} (a : A) (Q : A -> EmailService -> Prop) E s :
  Q a s -> wpx (ret a) Q E s.
Proof. auto. Qed.

Lemma wp_throw {A} msg (Q : A -> EmailService -> Prop)
    (E : string -> EmailService -> Prop) s :
  E msg s -> wpx (throw msg) Q E s.
Proof. auto. Qed.

Lemma wp_bind {A B} (m : M A) (k : A -> M B) Q E s :
  wpx m (fun a => wpx (k a) Q E) E s -> wpx (bind m k) Q E s.
Proof.
  unfold wpx, bind. destruct (m s) as [[a|msg] s']; auto.
Qed.

(** A method that does not throw, inside one that may. *)
Lemma wp_bind_wp {A B} (m : M A) (k : A -> M B) Q E s :
  wp m (fun a => wpx (k a) Q E) s -> wpx (bind m k) Q E s.
Proof.
  unfold wp, wpx, bind. destruct (m s) as [[a|msg] s']; tauto.
Qed.

Lemma wp_bind_eq {A B} (m : M A) (k : A -> M B) Q E s a s' :
  m s = (Ret a, s') -> wpx (k a) Q E s' -> wpx (bind m k) Q E s.
Proof. unfold wpx, bind. intros ->. auto. Qed.

Lemma wp_get {A B} (f : EmailService -> A) (k : A -> M B) Q E s :
  wpx (k (f s)) Q E s -> wpx (bind (get f) k) Q E s.
Proof. auto. Qed.

Lemma wp_modify {B} (f : EmailService -> EmailService) (k : unit -> M B)
    Q E s :
  wpx (k tt) Q E (f s) -> wpx (bind (modify f) k) Q E s.
Proof. auto. Qed.

Lemma wp_modify_last (f : EmailService -> EmailService)
    (Q : unit -> EmailService -> Prop) E s :
  Q tt (f s) -> wpx (modify f) Q E s.
Proof. auto. Qed.

Lemma wp_try_catch {A} (m : M A) (h : string -> M A) Q E s :
  wp m Q s -> wpx (try_catch m h) Q E s.
Proof.
  unfold wp, wpx, try_catch. destruct (m s) as [[a|msg] s']; tauto.
Qed.

(** ** Logging and events never throw and touch only their own fields *)

Lemma wp_log {B} lvl msg d (k : unit -> M B) Q E s :
  wpx (k tt) Q E
      (set_logger (Logger_log (clock s) lvl msg d (logger s)) s) ->
  wpx (bind (log lvl msg d) k) Q E s.
Proof. auto. Qed.

Lemma wp_log_last lvl msg d (Q : unit -> EmailService -> Prop) E s :
  Q tt (set_logger (Logger_log (clock s) lvl msg d (logger s)) s) ->
  wpx (log lvl msg d) Q E s.
Proof. auto. Qed.

Lemma forEach_listeners event d ls s :
  forEach ls (fun listener =>
      try_catch (call_listener event listener d)
        (fun msg =>
           log ERROR "Event listener error"
             [("event", LStr event); ("error", LStr msg)])) s
  = (Ret tt,
     set_logger (log_listener_errors (clock s) event d ls (logger s))
       (set_delivered
          (delivered s ++ map (fun l => (lid l, event, d)) ls) s)).
Proof.
  revert s. induction ls as [|l ls IH]; intros s.
  - simpl. rewrite app_nil_r. destruct s; reflexivity.
  - cbn [forEach]. unfold bind at 1. unfold try_catch, call_listener.
    unfold bind at 1. unfold modify at 1.
    destruct (handler l d) as [msg|] eqn:Hh;
      unfold throw, ret, log, modify; rewrite IH; simpl;
      unfold log_listener_errors; simpl; rewrite Hh, <- app_assoc;
      reflexivity.
Qed.

Lemma emit_emitted event d s : emit event d s = (Ret tt, emitted event d s).
Proof.
  unfold emit, emitted, bind, modify, get. simpl.
  destruct (eventListeners s !! event) as [ls|] eqn:Hl; simpl.
  - rewrite forEach_listeners. reflexivity.
  - unfold ret. rewrite app_nil_r. destruct s; reflexivity.
Qed.

Lemma wp_emit {B} event d (k : unit -> M B) Q E s :
  wpx (k tt) Q E (emitted event d s) -> wpx (bind (emit event d) k) Q E s.
Proof.
  intros H. unfold wpx, bind. rewrite emit_emitted. exact H.
Qed.

Lemma wp_attempts_set {B} attempt (k : unit -> M B) Q E s :
  wpx (k tt) Q E
     (set_attempts (Map_set (Attempt.id attempt) attempt (attempts s)) s) ->
  wpx (bind (attempts_set attempt) k) Q E s.
Proof. auto. Qed.

Ltac wp_step :=
  unfold wp;
  lazymatch goal with
  | |- wpx (bind (get _) _) _ _ _ => apply wp_get
  | |- wpx (bind (modify _) _) _ _ _ => apply wp_modify
  | |- wpx (bind (log _ _ _) _) _ _ _ => apply wp_log
  | |- wpx (bind (emit _ _) _) _ _ _ => apply wp_emit
  | |- wpx (bind (attempts_set _) _) _ _ _ => apply wp_attempts_set
  | |- wpx (log _ _ _) _ _ _ => apply wp_log_last
  | |- wpx (modify _) _ _ _ => apply wp_modify_last
  end;
  cbn beta.

(** ** The ledger as a [Map] *)

Section JsMapFacts.
Context {V : Type}.
Implicit Types (m : list (string * V)) (k : string) (v : V).

Lemma Map_get_set k v m k' :
  Map_get k' (Map_set k v m) =
    if decide (k = k') then Some v else Map_get k' m.
Proof.
  induction m as [|[k0 v0] m IH]; simpl.
  - destruct (decide (k' = k)), (decide (k = k')); congruence.
  - destruct (decide (k = k0)) as [->|Hk]; simpl.
    + destruct (decide (k' = k0)), (decide (k0 = k')); congruence.
    + destruct (decide (k' = k0)) as [->|Hk'].
      * destruct (decide (k = k0)); congruence.
      * exact IH.
Qed.

Lemma Map_get_set_eq k v m : Map_get k (Map_set k v m) = Some v.
Proof. rewrite Map_get_set. destruct (decide (k = k)); congruence. Qed.

Lemma Map_get_set_ne k v m k' :
  k <> k' -> Map_get k' (Map_set k v m) = Map_get k' m.
Proof.
  intros H. rewrite Map_get_set. destruct (decide (k = k')); congruence.
Qed.

Lemma Map_get_None k m : Map_get k m = None <-> k ∉ Map_keys m.
Proof.
  induction m as [|[k0 v0] m IH]; simpl.
  - split; [intros _; apply not_elem_of_nil | reflexivity].
  - rewrite not_elem_of_cons.
    destruct (decide (k = k0)) as [->|Hk]; split; try congruence.
    + intros [H _]. congruence.
    + intros H. split; [exact Hk | apply IH, H].
    + intros [_ H]. apply IH, H.
Qed.

Lemma Map_get_Some_keys k m v : Map_get k m = Some v -> k ∈ Map_keys m.
Proof.
  intros H. destruct (decide (k ∈ Map_keys m)) as [|Hn]; [assumption|].
  apply Map_get_None in Hn. congruence.
Qed.

Lemma Map_get_values k m v : Map_get k m = Some v -> v ∈ Map_values m.
Proof.
  induction m as [|[k0 v0] m IH]; simpl; [discriminate|].
  destruct (decide (k = k0)).
  - intros [= ->]. apply list_elem_of_here.
  - intros H. apply list_elem_of_further, IH, H.
Qed.

Lemma Map_values_get m v :
  NoDup (Map_keys m) -> v ∈ Map_values m ->
  exists k, Map_get k m = Some v.
Proof.
  induction m as [|[k0 v0] m IH]; simpl; intros Hnd Hin.
  - apply elem_of_nil in Hin. contradiction.
  - apply NoDup_cons in Hnd as [Hk0 Hnd].
    apply elem_of_cons in Hin as [->|Hin].
    + exists k0. destruct (decide (k0 = k0)); congruence.
    + destruct (IH Hnd Hin) as [k Hk]. exists k.
      destruct (decide (k = k0)) as [->|]; [|exact Hk].
      apply Map_get_Some_keys in Hk. contradiction.
Qed.

Lemma Map_set_fresh k v m :
  Map_get k m = None -> Map_set k v m = m ++ [(k, v)].
Proof.
  induction m as [|[k0 v0] m IH]; simpl; [reflexivity|].
  destruct (decide (k = k0)); [discriminate|].
  intros H. rewrite IH by exact H. reflexivity.
Qed.

Lemma Map_keys_set_present k v m v0 :
  Map_get k m = Some v0 -> Map_keys (Map_set k v m) = Map_keys m.
Proof.
  unfold Map_keys.
  induction m as [|[k1 v1] m IH]; simpl; [discriminate|].
  destruct (decide (k = k1)) as [->|]; [reflexivity|].
  intros H. simpl. rewrite IH by exact H. reflexivity.
Qed.

Lemma Map_set_NoDup k v m :
  NoDup (Map_keys m) -> NoDup (Map_keys (Map_set k v m)).
Proof.
  intros Hnd. destruct (Map_get k m) as [v0|] eqn:Hg.
  - rewrite (Map_keys_set_present _ _ _ _ Hg). exact Hnd.
  - rewrite Map_set_fresh by exact Hg. unfold Map_keys.
    rewrite map_app. simpl. apply NoDup_app. split; [exact Hnd|].
    split; [|apply NoDup_singleton].
    intros x Hx Hx'. apply list_elem_of_singleton in Hx'. subst x.
    apply Map_get_None in Hg. contradiction.
Qed.


Lemma find_values_None (P : V -> bool) m k v :
  find P (Map_values m) = None -> Map_get k m = Some v -> P v = false.
Proof.
  intros Hf Hg. eapply find_none; [exact Hf|].
  apply list_elem_of_In. eapply Map_get_values, Hg.
Qed.
End JsMapFacts.

(** ** How the parts of the invariant evolve *)

Lemma same_message_refl e : same_message e e.
Proof. repeat split. Qed.

Lemma is_duplicate_true now email a :
  is_duplicate now email a = true <->
  same_message (Attempt.email a) email /\ Attempt.status a <> FAILED /\
  now - Attempt.createdAt a < 300000.
Proof.
  unfold is_duplicate, same_message.
  rewrite !andb_true_iff, !bool_decide_eq_true, negb_true_iff,
    bool_decide_eq_false, Z.ltb_lt.
  tauto.
Qed.

Lemma is_duplicate_false now email a :
  is_duplicate now email a = false ->
  same_message (Attempt.email a) email -> Attempt.status a <> FAILED ->
  300000 <= now - Attempt.createdAt a.
Proof.
  intros Hd Hm Hs.
  destruct (Z_lt_le_dec (now - Attempt.createdAt a) 300000) as [Hlt|]; auto.
  assert (is_duplicate now email a = true) by (apply is_duplicate_true; auto).
  congruence.
Qed.

Lemma ledger_ok_elapse now now' m :
  ledger_ok now m -> now <= now' -> ledger_ok now' m.
Proof.
  intros [H1 H2 H3 H4] Hle. split; auto.
  intros k a Hk. specialize (H3 k a Hk). lia.
Qed.

(** The attempt [a'] takes the place of an entry [a] it has evolved
    from. *)
Lemma ledger_ok_update now m a a' :
  ledger_ok now m ->
  Map_get (Attempt.id a) m = Some a ->
  Attempt.id a' = Attempt.id a ->
  Attempt.email a' = Attempt.email a ->
  Attempt.createdAt a' = Attempt.createdAt a ->
  (Attempt.status a' <> FAILED -> Attempt.status a <> FAILED) ->
  ledger_ok now (Map_set (Attempt.id a) a' m).
Proof.
  intros [H1 H2 H3 H4] Ha Hid Hem Hcr Hst. split.
  - apply Map_set_NoDup, H1.
  - intros k b. rewrite Map_get_set.
    destruct (decide (Attempt.id a = k)); [intros [= <-]; congruence|].
    apply H2.
  - intros k b. rewrite Map_get_set.
    destruct (decide (Attempt.id a = k)).
    + intros [= <-]. rewrite Hcr. eapply H3, Ha.
    + apply H3.
  - intros k1 a1 k2 a2. rewrite !Map_get_set.
    destruct (decide (Attempt.id a = k1)) as [<-|];
      destruct (decide (Attempt.id a = k2)) as [<-|]; intros G1 G2 Hne.
    + congruence.
    + injection G1 as <-. rewrite Hem, Hcr. intros Hm Hs1 Hs2.
      eapply (H4 _ a _ a2); eauto.
    + injection G2 as <-. rewrite Hem, Hcr. intros Hm Hs1 Hs2.
      eapply (H4 _ a1 _ a); eauto.
    + eapply H4; eauto.
Qed.

(** A new attempt, created now, for a message that has no duplicate. *)
Lemma ledger_ok_insert now m k a :
  ledger_ok now m ->
  Map_get k m = None ->
  Attempt.id a = k ->
  Attempt.createdAt a = now ->
  (forall k' a', Map_get k' m = Some a' ->
     is_duplicate now (Attempt.email a) a' = false) ->
  ledger_ok now (Map_set k a m).
Proof.
  intros [H1 H2 H3 H4] Hk Hid Hcr Hnd. split.
  - apply Map_set_NoDup, H1.
  - intros k' b. rewrite Map_get_set.
    destruct (decide (k = k')); [intros [= <-]; congruence|]. apply H2.
  - intros k' b. rewrite Map_get_set.
    destruct (decide (k = k')); [intros [= <-]; lia|]. apply H3.
  - intros k1 a1 k2 a2. rewrite !Map_get_set.
    destruct (decide (k = k1)) as [<-|];
      destruct (decide (k = k2)) as [<-|]; intros G1 G2 Hne Hm Hs1 Hs2.
    + congruence.
    + injection G1 as <-.
      assert (300000 <= now - Attempt.createdAt a2).
      { eapply is_duplicate_false; eauto.
        destruct Hm as (?&?&?). repeat split; congruence. }
      specialize (H3 _ _ G2). lia.
    + injection G2 as <-.
      assert (300000 <= now - Attempt.createdAt a1).
      { eapply is_duplicate_false; eauto. }
      specialize (H3 _ _ G1). lia.
    + eapply H4; eauto.
Qed.

Lemma queue_ok_update m q k0 a' :
  queue_ok m q -> k0 ∉ q -> queue_ok (Map_set k0 a' m) q.
Proof.
  intros [Hnd Hq] Hn. split; [exact Hnd|].
  intros k Hk. destruct (Hq k Hk) as (a & Ha & Hs). exists a.
  rewrite Map_get_set_ne; [auto|]. intros <-. contradiction.
Qed.

Lemma queue_ok_fresh m q k :
  queue_ok m q -> Map_get k m = None -> k ∉ q.
Proof.
  intros [_ Hq] Hk Hin. destruct (Hq k Hin) as (a & Ha & _). congruence.
Qed.

Lemma queue_ok_push m q k0 a :
  queue_ok m q -> k0 ∉ q -> Attempt.status a = QUEUED ->
  queue_ok (Map_set k0 a m) (q ++ [k0]).
Proof.
  intros [Hnd Hq] Hn Hs. split.
  - apply NoDup_app. split; [exact Hnd|]. split; [|apply NoDup_singleton].
    intros x Hx Hx'. apply list_elem_of_singleton in Hx'. congruence.
  - intros k Hk. apply elem_of_app in Hk as [Hk|Hk].
    + destruct (Hq k Hk) as (b & Hb & Hsb). exists b.
      rewrite Map_get_set_ne; [auto|]. intros <-. contradiction.
    + apply list_elem_of_singleton in Hk. subst k. exists a.
      rewrite Map_get_set_eq. auto.
Qed.

Lemma queue_ok_pop m k q :
  queue_ok m (k :: q) ->
  queue_ok m q /\ (k ∉ q) /\
  exists a, Map_get k m = Some a /\ Attempt.status a = QUEUED.
Proof.
  intros [Hnd Hq]. apply NoDup_cons in Hnd as [Hk Hnd].
  split; [|split; [exact Hk|]].
  - split; [exact Hnd|]. intros k' Hk'. apply Hq, list_elem_of_further, Hk'.
  - apply Hq, list_elem_of_here.
Qed.

Lemma breakers_ok_insert cfg B n b :
  breakers_ok cfg B ->
  (isOpen b = true ->
   circuitBreakerThreshold cfg <= failureCount b /\
   is_Some (halfOpenRetryTime b)) ->
  breakers_ok cfg (<[n := b]> B).
Proof.
  intros HB Hb n' b'. rewrite lookup_insert.
  destruct (decide (n = n')); [intros [= <-]; exact Hb | apply HB].
Qed.

Lemma events_for_app k pub pub' :
  events_for k (pub ++ pub') = events_for k pub ++ events_for k pub'.
Proof. apply List.filter_app. Qed.

Lemma events_for_one_eq k ev a :
  Attempt.id a = k -> events_for k [(ev, a)] = [(ev, a)].
Proof.
  intros H. unfold events_for. simpl. rewrite bool_decide_eq_true_2; auto.
Qed.

Lemma events_for_one_ne k ev a :
  Attempt.id a <> k -> events_for k [(ev, a)] = [].
Proof.
  intros H. unfold events_for. simpl. rewrite bool_decide_eq_false_2; auto.
Qed.

Lemma events_ok_update cur cur' m pub k0 a' :
  events_ok cur m pub ->
  Attempt.id a' = k0 ->
  is_Some (Map_get k0 m) ->
  (forall k, k <> k0 -> cur = Some k -> cur' = Some k) ->
  events_ok cur' (Map_set k0 a' m) (pub ++ [("attemptUpdated", a')]).
Proof.
  intros He <- [a Ha] Hcur k. specialize (He k). rewrite Map_get_set.
  rewrite events_for_app.
  destruct (decide (Attempt.id a' = k)) as [<-|Hne].
  - rewrite Ha in He. destruct He as (a0 & us & Hev & Hp & Hus & _).
    rewrite events_for_one_eq by reflexivity.
    exists a0, (us ++ [("attemptUpdated", a')]). rewrite Hev.
    split; [reflexivity|]. split; [exact Hp|]. split.
    + apply Forall_app. split; [exact Hus|]. repeat constructor.
    + intros _. rewrite last_snoc. reflexivity.
  - rewrite events_for_one_ne, app_nil_r by exact Hne.
    destruct (Map_get k m) as [b|]; [|exact He].
    destruct He as (a0 & us & Hev & Hp & Hus & Hl).
    exists a0, us. split; [exact Hev|]. split; [exact Hp|].
    split; [exact Hus|].
    intros Hc. apply Hl. intros Hc'. apply Hc, Hcur; auto.
Qed.

(** A write to the attempt being processed that publishes nothing. *)
Lemma events_ok_silent k0 m pub a' :
  events_ok (Some k0) m pub ->
  Attempt.id a' = k0 ->
  is_Some (Map_get k0 m) ->
  events_ok (Some k0) (Map_set k0 a' m) pub.
Proof.
  intros He Hid [a Ha] k. specialize (He k). rewrite Map_get_set.
  destruct (decide (k0 = k)) as [<-|Hne]; [|exact He].
  rewrite Ha in He. destruct He as (a0 & us & Hev & Hp & Hus & _).
  exists a0, us. repeat split; auto. congruence.
Qed.

Lemma events_ok_insert cur m pub k0 a0 :
  events_ok cur m pub ->
  Attempt.id a0 = k0 ->
  Map_get k0 m = None ->
  Attempt.status a0 = PENDING ->
  events_ok cur (Map_set k0 a0 m) (pub ++ [("attemptCreated", a0)]).
Proof.
  intros He <- Hk Hp k. specialize (He k). rewrite Map_get_set.
  rewrite events_for_app.
  destruct (decide (Attempt.id a0 = k)) as [<-|Hne].
  - rewrite Hk in He. rewrite He, events_for_one_eq by reflexivity.
    exists a0, []. repeat split; auto.
  - rewrite events_for_one_ne, app_nil_r by exact Hne. exact He.
Qed.


(** ** Circuit breakers *)

Lemma set_logger_breakers_id s :
  set_logger (logger s) (set_circuitBreakers (circuitBreakers s) s) = s.
Proof. destruct s; reflexivity. Qed.

Lemma set_breakers_id s : set_circuitBreakers (circuitBreakers s) s = s.
Proof. destruct s; reflexivity. Qed.

Lemma isCircuitBreakerOpen_absent n s :
  circuitBreakers s !! n = None ->
  isCircuitBreakerOpen n s = (Ret false, s).
Proof.
  intros H. unfold isCircuitBreakerOpen, bind, get. rewrite H. reflexivity.
Qed.

Lemma isCircuitBreakerOpen_closed n s b :
  circuitBreakers s !! n = Some b -> isOpen b = false ->
  isCircuitBreakerOpen n s = (Ret false, s).
Proof.
  intros H Ho. unfold isCircuitBreakerOpen, bind, get. rewrite H, Ho.
  reflexivity.
Qed.

Lemma isCircuitBreakerOpen_blocked n s b :
  circuitBreakers s !! n = Some b -> blocked (clock s) b ->
  isCircuitBreakerOpen n s = (Ret true, s).
Proof.
  intros H [Ho Ht]. unfold isCircuitBreakerOpen, bind, get. rewrite H, Ho.
  destruct (halfOpenRetryTime b) as [t|]; [|reflexivity].
  destruct (t <=? clock s) eqn:E; [|reflexivity].
  apply Z.leb_le in E. lia.
Qed.

Lemma isCircuitBreakerOpen_probe n s b retryTime :
  circuitBreakers s !! n = Some b -> isOpen b = true ->
  halfOpenRetryTime b = Some retryTime -> retryTime <= clock s ->
  isCircuitBreakerOpen n s =
    (Ret false,
     set_logger
       (Logger_log (clock s) INFO "Circuit breaker half-open"
          [("provider", LStr n)] (logger s))
       (set_circuitBreakers
          (<[n := {| isOpen := false; failureCount := failureCount b;
                     lastFailureTime := lastFailureTime b;
                     halfOpenRetryTime := None |}]> (circuitBreakers s))
          s)).
Proof.
  intros H Ho Ht Hle. unfold isCircuitBreakerOpen, bind, get.
  rewrite H, Ho, Ht.
  destruct (retryTime <=? clock s) eqn:E; [reflexivity|].
  apply Z.leb_gt in E. lia.
Qed.

Lemma blocked_dec now b : {blocked now b} + {~ blocked now b}.
Proof.
  unfold blocked. destruct (isOpen b).
  - destruct (halfOpenRetryTime b) as [t|].
    + destruct (Z_lt_le_dec now t); [left; auto | right]. intros [_ H]. lia.
    + left; auto.
  - right. intros [H _]. discriminate.
Qed.

(** The check, as the invariants see it. *)
Lemma isCircuitBreakerOpen_frame n s :
  exists open L B,
    isCircuitBreakerOpen n s =
      (Ret open, set_logger L (set_circuitBreakers B s)) /\
    (breakers_ok (config s) (circuitBreakers s) ->
     breakers_ok (config s) B) /\
    (open = false -> forall b, B !! n = Some b -> isOpen b = false).
Proof.
  destruct (circuitBreakers s !! n) as [b|] eqn:Hb.
  - destruct (isOpen b) eqn:Ho.
    + destruct (blocked_dec (clock s) b) as [Hbl|Hbl].
      * exists true, (logger s), (circuitBreakers s).
        rewrite set_logger_breakers_id.
        split; [eapply isCircuitBreakerOpen_blocked; eauto|].
        split; [auto | discriminate].
      * destruct (halfOpenRetryTime b) as [t|] eqn:Ht.
        2:{ exfalso. apply Hbl. split; [auto|]. rewrite Ht. exact I. }
        assert (t <= clock s).
        { destruct (Z_lt_le_dec (clock s) t); [|assumption].
          exfalso. apply Hbl. split; [auto|]. rewrite Ht. assumption. }
        eexists false, _, _.
        split; [eapply isCircuitBreakerOpen_probe; eauto|]. split.
        -- intros HB. apply breakers_ok_insert; [exact HB|]. discriminate.
        -- intros _ b'. rewrite lookup_insert_eq. intros [= <-]. reflexivity.
    + exists false, (logger s), (circuitBreakers s).
      rewrite set_logger_breakers_id.
      split; [eapply isCircuitBreakerOpen_closed; eauto|].
      split; [auto|]. intros _ b'. rewrite Hb. intros [= <-]. exact Ho.
  - exists false, (logger s), (circuitBreakers s).
    rewrite set_logger_breakers_id.
    split; [eapply isCircuitBreakerOpen_absent; eauto|].
    split; [auto|]. intros _ b'. rewrite Hb. discriminate.
Qed.

Lemma recordProviderSuccess_present n s b :
  circuitBreakers s !! n = Some b ->
  recordProviderSuccess n s =
    (Ret tt,
     set_circuitBreakers
       (<[n := {| isOpen := false; failureCount := 0;
                  lastFailureTime := None; halfOpenRetryTime := None |}]>
          (circuitBreakers s)) s).
Proof.
  intros H. unfold recordProviderSuccess, bind, get. rewrite H. reflexivity.
Qed.

Lemma recordProviderSuccess_absent n s :
  circuitBreakers s !! n = None -> recordProviderSuccess n s = (Ret tt, s).
Proof.
  intros H. unfold recordProviderSuccess, bind, get. rewrite H. reflexivity.
Qed.

Lemma recordProviderSuccess_frame n s :
  exists B,
    recordProviderSuccess n s = (Ret tt, set_circuitBreakers B s) /\
    (breakers_ok (config s) (circuitBreakers s) ->
     breakers_ok (config s) B).
Proof.
  destruct (circuitBreakers s !! n) as [b|] eqn:Hb.
  - eexists. split; [eapply recordProviderSuccess_present; eauto|].
    intros HB. apply breakers_ok_insert; [exact HB|]. discriminate.
  - exists (circuitBreakers s). rewrite set_breakers_id.
    split; [eapply recordProviderSuccess_absent; eauto | auto].
Qed.

Lemma recordProviderFailure_absent n s :
  circuitBreakers s !! n = None -> recordProviderFailure n s = (Ret tt, s).
Proof.
  intros H. unfold recordProviderFailure, bind, get. rewrite H. reflexivity.
Qed.

Lemma recordProviderFailure_opens n s b :
  circuitBreakers s !! n = Some b ->
  circuitBreakerThreshold (config s) <= failureCount b + 1 ->
  recordProviderFailure n s =
    (Ret tt,
     set_logger
       (Logger_log (clock s) WARN "Circuit breaker opened"
          [("provider", LStr n); ("failureCount", LNum (failureCount b + 1))]
          (logger s))
       (set_circuitBreakers
          (<[n := {| isOpen := true; failureCount := failureCount b + 1;
                     lastFailureTime := Some (clock s);
                     halfOpenRetryTime :=
                       Some (clock s + circuitBreakerResetTime (config s)) |}]>
             (circuitBreakers s)) s)).
Proof.
  intros H Hth. unfold recordProviderFailure, bind, get. rewrite H.
  destruct (circuitBreakerThreshold (config s) <=? failureCount b + 1) eqn:E;
    [reflexivity|].
  apply Z.leb_gt in E. lia.
Qed.

Lemma recordProviderFailure_below n s b :
  circuitBreakers s !! n = Some b ->
  failureCount b + 1 < circuitBreakerThreshold (config s) ->
  recordProviderFailure n s =
    (Ret tt,
     set_circuitBreakers
       (<[n := {| isOpen := isOpen b; failureCount := failureCount b + 1;
                  lastFailureTime := Some (clock s);
                  halfOpenRetryTime := halfOpenRetryTime b |}]>
          (circuitBreakers s)) s).
Proof.
  intros H Hth. unfold recordProviderFailure, bind, get. rewrite H.
  destruct (circuitBreakerThreshold (config s) <=? failureCount b + 1) eqn:E;
    [|reflexivity].
  apply Z.leb_le in E. lia.
Qed.

Lemma recordProviderFailure_frame n s :
  exists L B,
    recordProviderFailure n s =
      (Ret tt, set_logger L (set_circuitBreakers B s)) /\
    (breakers_ok (config s) (circuitBreakers s) ->
     breakers_ok (config s) B).
Proof.
  destruct (circuitBreakers s !! n) as [b|] eqn:Hb.
  - destruct (Z_lt_le_dec (failureCount b + 1)
                (circuitBreakerThreshold (config s))) as [Hlt|Hle].
    + exists (logger s),
        (<[n := {| isOpen := isOpen b; failureCount := failureCount b + 1;
                   lastFailureTime := Some (clock s);
                   halfOpenRetryTime := halfOpenRetryTime b |}]>
           (circuitBreakers s)).
      split.
      * rewrite (recordProviderFailure_below _ _ _ Hb Hlt).
        destruct s; reflexivity.
      * intros HB. apply breakers_ok_insert; [exact HB|]. simpl.
        intros Ho. destruct (HB _ _ Hb Ho) as [H1 H2]. split; [lia|exact H2].
    + eexists _, _.
      split; [eapply recordProviderFailure_opens; eauto|].
      intros HB. apply breakers_ok_insert; [exact HB|]. simpl.
      intros _. split; [exact Hle | eauto].
  - exists (logger s), (circuitBreakers s). rewrite set_logger_breakers_id.
    split; [eapply recordProviderFailure_absent; eauto | auto].
Qed.

(** ** Backoff *)

Lemma backoffDelay_le cfg i : backoffDelay cfg i <= maxDelayMs cfg.
Proof. unfold backoffDelay. apply Z.le_min_r. Qed.

Lemma afterRound_delay i next attempt s :
  i < maxRetries (config s) - 1 ->
  exists s',
    afterRound i next attempt s = (Ret tt, s') /\
    pc s' = AwaitBackoff attempt i (clock s) (backoffDelay (config s) i) /\
    clock s' = clock s /\ config s' = config s.
Proof.
  intros Hi. unfold afterRound, bind, get.
  destruct (i <? maxRetries (config s) - 1) eqn:E.
  - eexists. split; [reflexivity|]. simpl. auto.
  - apply Z.ltb_ge in E. lia.
Qed.

Lemma afterRound_last i next attempt s :
  maxRetries (config s) - 1 <= i ->
  afterRound i next attempt s = next attempt s.
Proof.
  intros Hi. unfold afterRound, bind, get.
  destruct (i <? maxRetries (config s) - 1) eqn:E; [|reflexivity].
  apply Z.ltb_lt in E. lia.
Qed.

(** ** The drain loop keeps the invariant *)

Lemma Disp_frame a s L B :
  Disp a s -> breakers_ok (config s) B ->
  Disp a (set_logger L (set_circuitBreakers B s)).
Proof. intros [] HB. split; simpl; auto. Qed.

Lemma others_same_refl k m : others_same k m m.
Proof. intros k' _. reflexivity. Qed.

Lemma others_same_trans k m1 m2 m3 :
  others_same k m1 m2 -> others_same k m2 m3 -> others_same k m1 m3.
Proof. intros H1 H2 k' Hk. rewrite H2, H1; auto. Qed.

Lemma others_same_set k0 a m : others_same k0 m (Map_set k0 a m).
Proof. intros k Hk. rewrite Map_get_set_ne; congruence. Qed.

Lemma others_same_step k0 a m0 m :
  others_same k0 m0 m -> others_same k0 m0 (Map_set k0 a m).
Proof.
  intros H. eapply others_same_trans; [exact H | apply others_same_set].
Qed.

Lemma with_error_same a : Attempt.with_error (Attempt.error a) a = a.
Proof. destruct a; reflexivity. Qed.

Lemma Disp_in_flight a s i :
  Disp a s -> Attempt.attempts a = i + 1 ->
  0 <= i < maxRetries (config s) -> in_flight s a i.
Proof. intros [] Hat Hi. repeat split; auto; lia. Qed.

Lemma exhausted_Inv a s m0 :
  Disp a s -> others_same (Attempt.id a) m0 (attempts s) ->
  wp (exhausted a) (DispPost (Attempt.id a) m0) s.
Proof.
  intros [Hl Hq Hb He Hbusy Hent Hst Hdq Hlast] Hm0.
  unfold exhausted, suspend. repeat wp_step.
  unfold DispPost. split.
  - split; simpl.
    + eapply ledger_ok_update; eauto; simpl; congruence.
    + apply queue_ok_update; assumption.
    + exact Hb.
    + eapply (events_ok_update (Some (Attempt.id a)) None); eauto.
      intros k Hk [= E]; congruence.
    + exact Hbusy.
  - simpl. apply others_same_step, Hm0.
Qed.

Lemma tryProviders_Inv ps i a done s m0 :
  Disp a s ->
  Attempt.attempts a = i + 1 ->
  0 <= i < maxRetries (config s) ->
  others_same (Attempt.id a) m0 (attempts s) ->
  (forall s1, Disp a s1 -> config s1 = config s ->
     attempts s1 = attempts s ->
     wp (done a) (DispPost (Attempt.id a) m0) s1) ->
  wp (tryProviders ps i a done) (DispPost (Attempt.id a) m0) s.
Proof.
  intros HD Hat Hi Hm0 Hdone. revert s HD Hi Hm0 Hdone.
  induction ps as [|p rest IH]; intros s HD Hi Hm0 Hdone; simpl.
  - apply Hdone; auto.
  - destruct (isCircuitBreakerOpen_frame (name p) s)
      as (open & L & B & Heq & HB & Hclosed).
    eapply wp_bind_eq; [exact Heq|].
    specialize (HB (disp_breakers _ _ HD)).
    destruct open.
    + wp_step. apply IH.
      * destruct HD. split; simpl; auto.
      * exact Hi.
      * exact Hm0.
      * intros s1 HD1 Hc1 Ha1. apply Hdone; auto.
    + unfold suspend. repeat wp_step.
      unfold DispPost. split; [|exact Hm0].
      assert (HD' : Disp a (set_logger L (set_circuitBreakers B s)))
        by (apply Disp_frame; assumption).
      destruct HD' as [Hl Hq Hb He Hbusy Hent Hst Hdq Hlast].
      split; unfold pc_ok; simpl; auto.
      split; [|apply Hclosed; reflexivity].
      apply (Disp_in_flight a s i); assumption.
Qed.

Lemma afterRound_Inv i next a s m0 :
  Disp a s ->
  Attempt.attempts a = i + 1 ->
  0 <= i < maxRetries (config s) ->
  others_same (Attempt.id a) m0 (attempts s) ->
  (~ i < maxRetries (config s) - 1 ->
   wp (next a) (DispPost (Attempt.id a) m0) s) ->
  wp (afterRound i next a) (DispPost (Attempt.id a) m0) s.
Proof.
  intros HD Hat Hi Hm0 Hnext. unfold afterRound. wp_step.
  destruct (i <? maxRetries (config s) - 1) eqn:E.
  - apply Z.ltb_lt in E. unfold suspend. repeat wp_step.
    unfold DispPost. split; [|exact Hm0].
    pose proof (Disp_in_flight a s i HD Hat Hi) as Hfl.
    destruct HD as [Hl Hq Hb He Hbusy Hent Hst Hdq Hlast].
    split; unfold pc_ok; simpl; auto.
    split; [exact Hfl|]. repeat split; auto; lia.
  - apply Z.ltb_ge in E. apply Hnext. lia.
Qed.

Lemma rounds_Inv remaining : forall i a s m0,
  Disp a s ->
  remaining = Z.to_nat (maxRetries (config s) - i) ->
  0 <= i ->
  others_same (Attempt.id a) m0 (attempts s) ->
  wp (rounds remaining i a) (DispPost (Attempt.id a) m0) s.
Proof.
  induction remaining as [|rem IH]; intros i a s m0 HD Hrem Hi Hm0.
  - simpl. apply exhausted_Inv; assumption.
  - assert (i < maxRetries (config s)) by lia.
    cbn [rounds]. repeat wp_step.
    set (a' := Attempt.with_updatedAt (clock s)
                 (Attempt.with_attempts (i + 1) a)).
    assert (Hid : Attempt.id a' = Attempt.id a) by reflexivity.
    rewrite <- Hid.
    destruct HD as [Hl Hq Hb He Hbusy Hent Hst Hdq Hlast].
    apply tryProviders_Inv.
    + split; simpl; auto.
      * eapply ledger_ok_update; eauto; simpl; congruence.
      * apply queue_ok_update; assumption.
      * eapply (events_ok_update (Some (Attempt.id a))); eauto.
      * apply Map_get_set_eq.
      * exists a'. rewrite events_for_app, events_for_one_eq by reflexivity.
        rewrite last_snoc. split; [reflexivity | apply (with_error_same a')].
    + reflexivity.
    + simpl. lia.
    + apply (others_same_step (Attempt.id a) a' m0), Hm0.
    + intros s1 HD1 Hc1 Ha1.
      assert (Hm1 : others_same (Attempt.id a') m0 (attempts s1)).
      { rewrite Ha1. apply (others_same_step (Attempt.id a) a' m0), Hm0. }
      apply afterRound_Inv; auto.
      * rewrite Hc1. simpl. lia.
      * intros Hlast'. apply IH; auto.
        -- rewrite Hc1. simpl. lia.
        -- lia.
Qed.

Lemma forRounds_Inv i a s m0 :
  Disp a s -> 0 <= i ->
  others_same (Attempt.id a) m0 (attempts s) ->
  wp (forRounds i a) (DispPost (Attempt.id a) m0) s.
Proof.
  intros HD Hi Hm0. unfold forRounds. wp_step.
  apply rounds_Inv; auto.
Qed.

Lemma keeps_refl m : keeps m m.
Proof. intros k r H _ _. exact H. Qed.

Lemma keeps_trans m1 m2 m3 : keeps m1 m2 -> keeps m2 m3 -> keeps m1 m3.
Proof. intros H1 H2 k r H Hq Hs. apply H2; auto. Qed.

Lemma others_same_keeps k0 a m m' :
  Map_get k0 m = Some a ->
  Attempt.status a = QUEUED \/ Attempt.status a = SENDING ->
  others_same k0 m m' -> keeps m m'.
Proof.
  intros Ha Hst Ho k r Hk Hq Hs.
  destruct (decide (k = k0)) as [->|Hne].
  - rewrite Ha in Hk. injection Hk as <-. tauto.
  - rewrite Ho; auto.
Qed.

Lemma DispPost_StepPost k0 a m s' :
  Map_get k0 m = Some a ->
  Attempt.status a = QUEUED \/ Attempt.status a = SENDING ->
  DispPost k0 m tt s' -> StepPost m s'.
Proof.
  intros Ha Hst [HI Ho]. split; [exact HI|].
  eapply others_same_keeps; eauto.
Qed.

Lemma processEmailAttempt_Inv a s :
  ledger_ok (clock s) (attempts s) ->
  queue_ok (attempts s) (queue s) ->
  breakers_ok (config s) (circuitBreakers s) ->
  events_ok None (attempts s) (published s) ->
  processingQueue s = true ->
  Map_get (Attempt.id a) (attempts s) = Some a ->
  Attempt.status a = QUEUED ->
  Attempt.id a ∉ queue s ->
  wp (processEmailAttempt a) (DispPost (Attempt.id a) (attempts s)) s.
Proof.
  intros Hl Hq Hb He Hbusy Hent Hst Hdq.
  unfold processEmailAttempt. repeat wp_step.
  set (a' := Attempt.with_status SENDING a).
  apply (forRounds_Inv 0 a' _ (attempts s)).
  - split; simpl; auto.
    + eapply ledger_ok_update; eauto; simpl; congruence.
    + apply queue_ok_update; assumption.
    + eapply (events_ok_update None); eauto. discriminate.
    + apply Map_get_set_eq.
    + exists a'. rewrite events_for_app, events_for_one_eq by reflexivity.
      rewrite last_snoc. split; [reflexivity | apply (with_error_same a')].
  - lia.
  - apply (others_same_set (Attempt.id a) a').
Qed.

Lemma drain_Inv q s :
  ledger_ok (clock s) (attempts s) ->
  queue_ok (attempts s) q ->
  queue s = q ->
  breakers_ok (config s) (circuitBreakers s) ->
  events_ok None (attempts s) (published s) ->
  processingQueue s = true ->
  wp (drain q) (fun _ => StepPost (attempts s)) s.
Proof.
  intros Hl Hq Hqs Hb He Hbusy. destruct q as [|k q']; cbn [drain].
  - unfold suspend. repeat wp_step. split; [|apply keeps_refl].
    split; unfold pc_ok; simpl; auto. rewrite Hqs. exact Hq.
  - destruct (queue_ok_pop _ _ _ Hq) as (Hq' & Hk & a & Ha & Hst).
    repeat wp_step. simpl. rewrite Ha.
    assert (Hid : Attempt.id a = k) by (eapply ledger_ids; eauto).
    unfold guarded. apply wp_try_catch.
    eapply wp_mono.
    + apply processEmailAttempt_Inv; simpl; auto; rewrite Hid; auto.
    + intros [] s' HP. simpl in HP. rewrite Hid in HP.
      eapply DispPost_StepPost; eauto.
Qed.

Lemma Inv_busy_or_idle s :
  Inv s -> processingQueue s = false -> pc s = Idle.
Proof.
  intros [_ _ _ _ Hpc] Hp. unfold pc_ok in Hpc.
  destruct (pc s) as [|a i p rest|a i t d|]; auto.
  - destruct Hpc as [(Hb & _) _]. congruence.
  - destruct Hpc as [(Hb & _) _]. congruence.
  - congruence.
Qed.

Lemma processQueue_Inv s :
  Inv s -> wp processQueue (fun _ => StepPost (attempts s)) s.
Proof.
  intros HI. unfold processQueue. wp_step.
  destruct (processingQueue s) eqn:Hp.
  - apply wp_ret. split; [exact HI | apply keeps_refl].
  - pose proof (Inv_busy_or_idle s HI Hp) as Hpc.
    destruct HI as [Hl Hq Hb He _]. rewrite Hpc in He. simpl in He.
    repeat wp_step.
    apply (drain_Inv (queue s) (set_processingQueue true s)); simpl; auto.
Qed.

Lemma afterAttempt_Inv s :
  Inv s -> pc s = AwaitAttempt ->
  wp afterAttempt (fun _ => StepPost (attempts s)) s.
Proof.
  intros [Hl Hq Hb He Hpc] Hp. unfold pc_ok in Hpc. rewrite Hp in *.
  simpl in He. unfold afterAttempt. wp_step.
  apply drain_Inv; auto.
Qed.

Lemma Inv_Disp s a i :
  Inv s -> active (pc s) = Some a -> in_flight s a i -> Disp a s.
Proof.
  intros [Hl Hq Hb He Hpc] Ha (Hbusy & Hent & Hst & Hdq & Hat & Hi & Hlast).
  rewrite Ha in He. split; auto.
Qed.


Lemma afterBackoff_Inv s a i t d :
  Inv s -> pc s = AwaitBackoff a i t d ->
  wp (afterBackoff a i) (fun _ => StepPost (attempts s)) s.
Proof.
  intros HI Hp. pose proof (inv_pc _ HI) as Hpc. unfold pc_ok in Hpc.
  rewrite Hp in Hpc. destruct Hpc as (Hfl & _).
  assert (HD : Disp a s) by (eapply Inv_Disp; eauto; rewrite Hp; auto).
  destruct Hfl as (_ & Hent & Hst & _ & _ & Hi & _).
  unfold afterBackoff. eapply wp_mono.
  - apply (forRounds_Inv (i + 1) a s (attempts s)); auto; [lia|].
    apply others_same_refl.
  - intros [] s' HP. eapply DispPost_StepPost; eauto.
Qed.

Lemma afterSend_Inv o s a i p rest :
  Inv s -> pc s = AwaitSend a i p rest ->
  wp (afterSend o a i p rest) (fun _ => StepPost (attempts s)) s.
Proof.
  intros HI Hp. pose proof (inv_pc _ HI) as Hpc. unfold pc_ok in Hpc.
  rewrite Hp in Hpc. destruct Hpc as (Hfl & _).
  assert (HD : Disp a s) by (eapply Inv_Disp; eauto; rewrite Hp; auto).
  destruct Hfl as (_ & Hent & Hst & _ & Hat & Hi & _).
  assert (Hdone : forall a' s1 m0,
            Disp a' s1 -> Attempt.attempts a' = i + 1 ->
            config s1 = config s ->
            others_same (Attempt.id a') m0 (attempts s1) ->
            wp (afterRound i (forRounds (i + 1)) a')
               (DispPost (Attempt.id a') m0) s1).
  { intros a' s1 m0 HD1 Hat1 Hc1 Hm1. apply afterRound_Inv; auto.
    - rewrite Hc1. exact Hi.
    - intros _. apply forRounds_Inv; auto. lia. }
  eapply wp_mono with (Q := DispPost (Attempt.id a) (attempts s));
    [|intros [] s' HP; eapply DispPost_StepPost; eauto].
  destruct o as [[|] mid|msg]; cbn [afterSend].
  - (* the provider succeeded *)
    repeat wp_step.
    match goal with |- wpx (bind (recordProviderSuccess ?n) _) _ _ ?s1 =>
      destruct (recordProviderSuccess_frame n s1) as (B & Heq & HB) end.
    eapply wp_bind_eq; [exact Heq|].
    destruct HD as [Hl Hq Hb He Hbusy _ _ Hdq Hlast].
    specialize (HB Hb).
    unfold incrementRateLimit, suspend. repeat wp_step.
    split.
    + split; unfold pc_ok; simpl; auto.
      * eapply ledger_ok_update; eauto; simpl; congruence.
      * apply queue_ok_update; assumption.
      * eapply (events_ok_update (Some (Attempt.id a)) None); eauto.
        intros k Hk [= E]; congruence.
    + simpl. apply others_same_set.
  - (* the provider resolved without success *)
    apply tryProviders_Inv; auto.
    + apply others_same_refl.
    + intros s1 HD1 Hc1 Ha1. apply Hdone; auto.
      rewrite Ha1. apply others_same_refl.
  - (* the provider failed *)
    wp_step.
    match goal with |- wpx (bind (recordProviderFailure ?n) _) _ _ ?s1 =>
      destruct (recordProviderFailure_frame n s1) as (L & B & Heq & HB) end.
    eapply wp_bind_eq; [exact Heq|].
    destruct HD as [Hl Hq Hb He Hbusy _ _ Hdq Hlast].
    specialize (HB Hb). wp_step.
    set (a' := Attempt.with_error (Some msg) a).
    apply (tryProviders_Inv rest i a' _ _ (attempts s)).
    + split; simpl; auto.
      * eapply ledger_ok_update; eauto; simpl; congruence.
      * apply queue_ok_update; assumption.
      * apply events_ok_silent; eauto.
      * apply Map_get_set_eq.
      * destruct Hlast as (b & Hb1 & Hb2). exists b. split; [exact Hb1|].
        unfold a'. rewrite <- Hb2. reflexivity.
    + exact Hat.
    + exact Hi.
    + apply (others_same_set (Attempt.id a) a').
    + intros s1 HD1 Hc1 Ha1. apply Hdone; auto.
      rewrite Ha1. apply (others_same_set (Attempt.id a) a').
Qed.

(** ** Submission keeps the invariant *)

Lemma checkRateLimit_run s :
  checkRateLimit s =
    if resetTime (rateLimitState s) <=? clock s
    then (Ret (0 <? rateLimitPerMinute (config s)),
          set_rateLimitState
            {| count := 0; resetTime := clock s + 60000 |} s)
    else (Ret (count (rateLimitState s) <? rateLimitPerMinute (config s)),
          s).
Proof.
  unfold checkRateLimit, bind, get.
  destruct (resetTime (rateLimitState s) <=? clock s); reflexivity.
Qed.

Lemma checkRateLimit_frame s :
  exists ok R, checkRateLimit s = (Ret ok, set_rateLimitState R s).
Proof.
  rewrite checkRateLimit_run.
  destruct (resetTime (rateLimitState s) <=? clock s).
  - eexists _, _. reflexivity.
  - exists (count (rateLimitState s) <? rateLimitPerMinute (config s)),
      (rateLimitState s).
    destruct s; reflexivity.
Qed.

Lemma in_flight_frame s s' a i :
  in_flight s a i ->
  processingQueue s' = processingQueue s ->
  config s' = config s ->
  Map_get (Attempt.id a) (attempts s') = Map_get (Attempt.id a) (attempts s) ->
  (Attempt.id a ∉ queue s -> Attempt.id a ∉ queue s') ->
  events_for (Attempt.id a) (published s') =
    events_for (Attempt.id a) (published s) ->
  in_flight s' a i.
Proof.
  intros (H1 & H2 & H3 & H4 & H5 & H6 & H7) E1 E2 E3 E4 E5.
  unfold in_flight. rewrite E1, E2, E3, E5. auto 10.
Qed.

Lemma pc_ok_frame s s' :
  pc_ok s ->
  pc s' = pc s ->
  processingQueue s' = processingQueue s ->
  config s' = config s ->
  circuitBreakers s' = circuitBreakers s ->
  clock s <= clock s' ->
  (forall a, active (pc s) = Some a ->
     Map_get (Attempt.id a) (attempts s') =
       Map_get (Attempt.id a) (attempts s) /\
     (Attempt.id a ∉ queue s -> Attempt.id a ∉ queue s') /\
     events_for (Attempt.id a) (published s') =
       events_for (Attempt.id a) (published s)) ->
  pc_ok s'.
Proof.
  unfold pc_ok. intros Hpc E1 E2 E3 E4 E5 Hact. rewrite E1, E2, E3, E4.
  destruct (pc s) as [|a i p rest|a i t d|]; auto.
  - destruct Hpc as [Hfl Hbr]. split; [|exact Hbr].
    destruct (Hact a eq_refl) as (G1 & G2 & G3).
    eapply in_flight_frame; eauto.
  - destruct Hpc as (Hfl & Hd & Hi & Ht). split; [|repeat split; auto; lia].
    destruct (Hact a eq_refl) as (G1 & G2 & G3).
    eapply in_flight_frame; eauto.
Qed.

Lemma Inv_active_entry s a :
  Inv s -> active (pc s) = Some a ->
  Map_get (Attempt.id a) (attempts s) = Some a /\
  Attempt.status a = SENDING.
Proof.
  intros [_ _ _ _ Hpc] Ha. unfold pc_ok in Hpc.
  destruct (pc s) as [|a' i p rest|a' i t d|]; try discriminate;
    injection Ha as ->.
  - destruct Hpc as [(_ & H & H' & _) _]. auto.
  - destruct Hpc as [(_ & H & H' & _) _]. auto.
Qed.

(** The state in which [sendEmail] has entered a new attempt [a0] in the
    ledger, published it, and published its update [a1]. *)
Lemma submitted_Inv s s' email attemptId a0 a1 :
  Inv s ->
  Map_get attemptId (attempts s) = None ->
  (forall k' a', Map_get k' (attempts s) = Some a' ->
     is_duplicate (clock s) email a' = false) ->
  Attempt.id a0 = attemptId -> Attempt.email a0 = email ->
  Attempt.createdAt a0 = clock s -> Attempt.status a0 = PENDING ->
  Attempt.id a1 = attemptId -> Attempt.email a1 = email ->
  Attempt.createdAt a1 = clock s ->
  attempts s' = Map_set attemptId a1 (Map_set attemptId a0 (attempts s)) ->
  published s' =
    (published s ++ [("attemptCreated", a0)]) ++ [("attemptUpdated", a1)] ->
  (queue s' = queue s \/
   queue s' = queue s ++ [attemptId] /\ Attempt.status a1 = QUEUED) ->
  config s' = config s -> circuitBreakers s' = circuitBreakers s ->
  clock s' = clock s -> pc s' = pc s ->
  processingQueue s' = processingQueue s ->
  Inv s' /\ keeps (attempts s) (attempts s').
Proof.
  intros HI Hfresh Hnodup Hid0 Hem0 Hcr0 Hst0 Hid1 Hem1 Hcr1
    Hatt Hpub Hqueue Hcfg Hbrk Hclk Hpc Hbusy.
  pose proof HI as [Hl Hq Hb He Hpcok].
  assert (Hnq : attemptId ∉ queue s) by (eapply queue_ok_fresh; eauto).
  assert (Hl0 : ledger_ok (clock s) (Map_set attemptId a0 (attempts s))).
  { apply ledger_ok_insert; auto. rewrite Hem0. exact Hnodup. }
  assert (Hg0 : Map_get attemptId (Map_set attemptId a0 (attempts s))
                = Some a0) by apply Map_get_set_eq.
  split.
  - split.
    + rewrite Hclk, Hatt. rewrite <- Hid0 in Hg0 |- *.
      eapply ledger_ok_update; eauto; congruence.
    + rewrite Hatt.
      destruct Hqueue as [-> | [-> Hst1]].
      * do 2 (apply queue_ok_update; [|exact Hnq]). exact Hq.
      * apply queue_ok_push; [|exact Hnq|exact Hst1].
        apply queue_ok_update; assumption.
    + rewrite Hcfg, Hbrk. exact Hb.
    + rewrite Hpc, Hatt, Hpub.
      eapply events_ok_update; eauto.
      apply events_ok_insert; eauto.
    + apply (pc_ok_frame s); auto; [lia|].
      intros a Ha. destruct (Inv_active_entry s a HI Ha) as [Hent _].
      assert (Hne : attemptId <> Attempt.id a) by congruence.
      split; [|split].
      * rewrite Hatt, !Map_get_set_ne; auto.
      * intros Hn. destruct Hqueue as [-> | [-> _]]; [exact Hn|].
        rewrite not_elem_of_app. split; [exact Hn|].
        rewrite list_elem_of_singleton. congruence.
      * rewrite Hpub, !events_for_app, !events_for_one_ne, !app_nil_r;
          congruence.
  - intros k r Hk _ _. rewrite Hatt.
    assert (attemptId <> k) by congruence.
    rewrite !Map_get_set_ne; auto.
Qed.

Lemma findExistingAttempt_run email s :
  findExistingAttempt email s =
    (Ret (find (is_duplicate (clock s) email) (Map_values (attempts s))), s).
Proof. reflexivity. Qed.

Lemma sendEmail_Inv email attemptId s :
  Inv s -> Map_get attemptId (attempts s) = None ->
  wpx (sendEmail email attemptId)
      (fun _ => StepPost (attempts s)) (fun _ => StepPost (attempts s)) s.
Proof.
  intros HI Hfresh. unfold sendEmail.
  eapply wp_bind_eq; [apply findExistingAttempt_run|].
  destruct (find (is_duplicate (clock s) email) (Map_values (attempts s)))
    as [existing|] eqn:Hfind.
  - (* a duplicate: nothing but a log entry *)
    wp_step. apply wp_ret. split; [|apply keeps_refl].
    destruct HI as [Hl Hq Hb He Hpc]. split; simpl; auto.
  - repeat wp_step.
    match goal with |- wpx (bind checkRateLimit _) _ _ ?s1 =>
      destruct (checkRateLimit_frame s1) as (ok & R & Heq) end.
    eapply wp_bind_eq; [exact Heq|].
    assert (Hnodup : forall k' a', Map_get k' (attempts s) = Some a' ->
              is_duplicate (clock s) email a' = false).
    { intros k' a' Hk'. eapply find_values_None; eauto. }
    destruct ok; cbn [negb].
    + (* let in *)
      repeat wp_step. apply wp_bind_wp.
      apply wp_try_catch.
      match goal with |- wp processQueue _ ?sQ =>
        assert (HQ : Inv sQ /\ keeps (attempts s) (attempts sQ)) end.
      { eapply (submitted_Inv s _ email attemptId); eauto; reflexivity. }
      destruct HQ as [HIQ HkQ].
      eapply wp_mono; [apply processQueue_Inv, HIQ|].
      intros [] s' [HI' Hk']. apply wp_ret. split; [exact HI'|].
      eapply keeps_trans; eauto.
    + (* rejected *)
      repeat wp_step. apply wp_throw.
      eapply (submitted_Inv s _ email attemptId); eauto; reflexivity.
Qed.

(** ** Every reachable state satisfies the invariant *)

Lemma wp_snd {A} (m : M A) (Q : A -> EmailService -> Prop)
    (P : EmailService -> Prop) s :
  wp m Q s -> (forall a s', Q a s' -> P s') -> P (snd (m s)).
Proof.
  intros H HQ. apply wp_elim in H as (a & s' & -> & Ha). simpl. eauto.
Qed.

Lemma wpx_snd {A} (m : M A) (P : EmailService -> Prop) s :
  wpx m (fun _ => P) (fun _ => P) s -> P (snd (m s)).
Proof. unfold wpx. destruct (m s) as [[a|msg] s']; auto. Qed.

Lemma new_breakers_closed (ps : list Provider) :
  forall (B : gmap string CircuitBreaker) n b,
  (forall n b, B !! n = Some b -> isOpen b = false) ->
  foldl (fun m p =>
           <[name p := {| isOpen := false; failureCount := 0;
                          lastFailureTime := None;
                          halfOpenRetryTime := None |}]> m) B ps !! n
    = Some b ->
  isOpen b = false.
Proof.
  induction ps as [|p ps IH]; intros B n b HB; simpl.
  - apply HB.
  - apply IH. intros n' b'. rewrite lookup_insert.
    destruct (decide (name p = n')); [intros [= <-]; reflexivity | apply HB].
Qed.

Lemma Inv_new ps cfg now : Inv (EmailService_new ps cfg now).
Proof.
  split; unfold pc_ok; simpl; auto.
  - split; simpl; try discriminate. apply NoDup_nil_2.
  - split; [apply NoDup_nil_2|]. intros k Hk.
    apply elem_of_nil in Hk. contradiction.
  - intros n b Hb Ho.
    assert (isOpen b = false); [|congruence].
    eapply new_breakers_closed; [|exact Hb].
    intros n' b'. rewrite lookup_empty. discriminate.
  - intros k. reflexivity.
Qed.

Lemma step_Inv s a s' : Inv s -> step s a s' -> StepPost (attempts s) s'.
Proof.
  intros HI. unfold step. destruct a as [email attemptId|event l|event l|
    |dt|o| |]; simpl.
  - destruct (Map_get attemptId (attempts s)) eqn:Hfresh; [discriminate|].
    intros [= <-]. apply wpx_snd, sendEmail_Inv; assumption.
  - intros [= <-]. split; [|apply keeps_refl].
    destruct HI. split; auto.
  - intros [= <-]. split; [|unfold off, modify; simpl;
      destruct (eventListeners s !! event); apply keeps_refl].
    unfold off, modify. simpl.
    destruct (eventListeners s !! event); [|exact HI].
    destruct HI. split; auto.
  - intros [= <-]. split; [|apply keeps_refl].
    destruct HI. split; auto.
  - destruct (0 <=? dt) eqn:Hdt; [|discriminate]. intros [= <-].
    apply Z.leb_le in Hdt. split; [|apply keeps_refl].
    pose proof HI as [Hl Hq Hb He Hpc]. split; simpl; auto.
    + eapply ledger_ok_elapse; eauto. lia.
    + apply (pc_ok_frame s); simpl; auto. lia.
  - destruct (pc s) as [|at0 i p rest|at0 i t d|] eqn:Hp; try discriminate.
    intros [= <-]. unfold guarded.
    eapply wp_snd; [apply wp_try_catch, afterSend_Inv; eassumption|].
    auto.
  - destruct (pc s) as [|at0 i p rest|at0 i t d|] eqn:Hp; try discriminate.
    destruct (t + d <=? clock s); [|discriminate].
    intros [= <-]. unfold guarded.
    eapply wp_snd; [apply wp_try_catch; eapply afterBackoff_Inv; eassumption|].
    auto.
  - destruct (pc s) as [|at0 i p rest|at0 i t d|] eqn:Hp; try discriminate.
    intros [= <-].
    eapply wp_snd; [apply afterAttempt_Inv; eassumption|]. auto.
Qed.

Lemma reachable_Inv ps cfg s : reachable ps cfg s -> Inv s.
Proof.
  induction 1 as [now|s a s' _ IH Hstep].
  - apply Inv_new.
  - eapply step_Inv; eauto.
Qed.


Lemma run_reachable ps cfg acts : forall s s',
  reachable ps cfg s -> run acts s = Some s' -> reachable ps cfg s'.
Proof.
  induction acts as [|a acts IH]; intros s s' Hr; simpl.
  - intros [= <-]. exact Hr.
  - destruct (exec a s) as [s1|] eqn:He; [|discriminate].
    apply IH. eapply reachable_step; eauto.
Qed.

Lemma run_Inv acts : forall s s',
  Inv s -> run acts s = Some s' -> Inv s' /\ keeps (attempts s) (attempts s').
Proof.
  induction acts as [|a acts IH]; intros s s' HI; simpl.
  - intros [= <-]. split; [exact HI | apply keeps_refl].
  - destruct (exec a s) as [s1|] eqn:He; [|discriminate].
    intros Hrun. destruct (step_Inv s a s1 HI He) as [HI1 Hk1].
    destruct (IH _ _ HI1 Hrun) as [HI' Hk']. split; [exact HI'|].
    eapply keeps_trans; eauto.
Qed.

(** ** The drain loop never throws, and keeps providers and configuration *)

Lemma same_setup_trans s1 s2 s3 :
  same_setup s1 s2 -> same_setup s2 s3 -> same_setup s1 s3.
Proof. intros [H1 H2] [H3 H4]. split; congruence. Qed.

Lemma wp_setup_trans {A} (m : M A) s s1 :
  same_setup s s1 ->
  wp m (fun _ s' => same_setup s1 s') s1 ->
  wp m (fun _ s' => same_setup s s') s1.
Proof.
  intros H Hw. eapply wp_mono; [exact Hw|].
  intros a s' H'. eapply same_setup_trans; eauto.
Qed.

Lemma exhausted_returns a s :
  wp (exhausted a) (fun _ s' => same_setup s s') s.
Proof.
  unfold exhausted, suspend. repeat wp_step. split; reflexivity.
Qed.

Lemma tryProviders_returns ps i a done :
  (forall a' s', wp (done a') (fun _ s'' => same_setup s' s'') s') ->
  forall s, wp (tryProviders ps i a done) (fun _ s' => same_setup s s') s.
Proof.
  intros Hdone. induction ps as [|p rest IH]; intros s; simpl.
  - apply Hdone.
  - destruct (isCircuitBreakerOpen_frame (name p) s)
      as (open & L & B & Heq & _).
    eapply wp_bind_eq; [exact Heq|].
    destruct open.
    + wp_step. apply wp_setup_trans; [split; reflexivity | apply IH].
    + unfold suspend. repeat wp_step. split; reflexivity.
Qed.

Lemma afterRound_returns i next :
  (forall a s, wp (next a) (fun _ s' => same_setup s s') s) ->
  forall a s, wp (afterRound i next a) (fun _ s' => same_setup s s') s.
Proof.
  intros Hnext a s. unfold afterRound. wp_step.
  destruct (i <? maxRetries (config s) - 1).
  - unfold suspend. repeat wp_step. split; reflexivity.
  - apply Hnext.
Qed.

Lemma rounds_returns remaining :
  forall i a s, wp (rounds remaining i a) (fun _ s' => same_setup s s') s.
Proof.
  induction remaining as [|rem IH]; intros i a s; cbn [rounds].
  - apply exhausted_returns.
  - repeat wp_step.
    apply wp_setup_trans; [split; reflexivity|].
    apply tryProviders_returns.
    apply afterRound_returns. intros a' s'. apply IH.
Qed.

Lemma forRounds_returns i a s :
  wp (forRounds i a) (fun _ s' => same_setup s s') s.
Proof. unfold forRounds. wp_step. apply rounds_returns. Qed.

Lemma processEmailAttempt_returns a s :
  wp (processEmailAttempt a) (fun _ s' => same_setup s s') s.
Proof.
  unfold processEmailAttempt. repeat wp_step.
  apply wp_setup_trans; [split; reflexivity | apply forRounds_returns].
Qed.

Lemma afterSend_returns o a i p rest s :
  wp (afterSend o a i p rest) (fun _ s' => same_setup s s') s.
Proof.
  assert (Hdone : forall a' s',
            wp (afterRound i (forRounds (i + 1)) a')
               (fun _ s'' => same_setup s' s'') s').
  { apply afterRound_returns. intros a' s'. apply forRounds_returns. }
  destruct o as [[|] mid|msg]; cbn [afterSend].
  - repeat wp_step.
    match goal with |- wpx (bind (recordProviderSuccess ?n) _) _ _ ?s1 =>
      destruct (recordProviderSuccess_frame n s1) as (B & Heq & _) end.
    eapply wp_bind_eq; [exact Heq|].
    unfold incrementRateLimit, suspend. repeat wp_step.
    split; reflexivity.
  - apply tryProviders_returns, Hdone.
  - wp_step.
    match goal with |- wpx (bind (recordProviderFailure ?n) _) _ _ ?s1 =>
      destruct (recordProviderFailure_frame n s1) as (L & B & Heq & _) end.
    eapply wp_bind_eq; [exact Heq|].
    wp_step. apply wp_setup_trans; [split; reflexivity|].
    apply tryProviders_returns, Hdone.
Qed.

Lemma afterBackoff_returns a i s :
  wp (afterBackoff a i) (fun _ s' => same_setup s s') s.
Proof. apply forRounds_returns. Qed.

Lemma drain_returns q :
  forall s, wp (drain q) (fun _ s' => same_setup s s') s.
Proof.
  induction q as [|k q IH]; intros s; cbn [drain].
  - unfold suspend. repeat wp_step. split; reflexivity.
  - repeat wp_step.
    apply wp_setup_trans; [split; reflexivity|].
    destruct (Map_get k (attempts (set_queue q s))); [|apply IH].
    unfold guarded. apply wp_try_catch, processEmailAttempt_returns.
Qed.

Lemma afterAttempt_returns s :
  wp afterAttempt (fun _ s' => same_setup s s') s.
Proof. unfold afterAttempt. wp_step. apply drain_returns. Qed.

Lemma processQueue_returns s :
  wp processQueue (fun _ s' => same_setup s s') s.
Proof.
  unfold processQueue. wp_step. destruct (processingQueue s).
  - apply wp_ret; split; reflexivity.
  - repeat wp_step.
    apply wp_setup_trans; [split; reflexivity | apply drain_returns].
Qed.

Lemma wp_fst (m : M unit) Q s : wp m Q s -> fst (m s) = Ret tt.
Proof.
  intros H. apply wp_elim in H as ([] & s' & -> & _). reflexivity.
Qed.

Lemma checkRateLimit_fst s s1 :
  rateLimitState s1 = rateLimitState s -> clock s1 = clock s ->
  config s1 = config s ->
  fst (checkRateLimit s1) = fst (checkRateLimit s).
Proof.
  intros E1 E2 E3. rewrite !checkRateLimit_run, E1, E2, E3.
  destruct (resetTime (rateLimitState s) <=? clock s); reflexivity.
Qed.

(** The one error of [sendEmail]. *)
Lemma sendEmail_throws email attemptId s :
  wpx (sendEmail email attemptId) (fun _ s' => same_setup s s')
      (fun msg s' =>
         same_setup s s' /\
         msg = "Rate limit exceeded. Please try again later." /\
         findExistingAttempt email s = (Ret None, s) /\
         fst (checkRateLimit s) = Ret false) s.
Proof.
  unfold sendEmail.
  eapply wp_bind_eq; [apply findExistingAttempt_run|].
  rewrite findExistingAttempt_run.
  destruct (find (is_duplicate (clock s) email) (Map_values (attempts s)))
    as [existing|] eqn:Hfind.
  - wp_step. apply wp_ret; split; reflexivity.
  - repeat wp_step.
    match goal with |- wpx (bind checkRateLimit _) _ _ ?s1 =>
      pose proof (checkRateLimit_fst s s1 eq_refl eq_refl eq_refl) as Hsame;
      destruct (checkRateLimit_frame s1) as (ok & R & Heq) end.
    eapply wp_bind_eq; [exact Heq|].
    rewrite Heq in Hsame. simpl in Hsame.
    destruct ok; cbn [negb].
    + repeat wp_step. apply wp_bind_wp, wp_try_catch.
      eapply wp_mono; [apply processQueue_returns|].
      intros [] s' Hs. apply wp_ret. exact Hs.
    + repeat wp_step. apply wp_throw.
      split; [split; reflexivity | auto].
Qed.

Lemma step_setup s a s' : step s a s' -> same_setup s s'.
Proof.
  unfold step. destruct a as [email attemptId|event l|event l|
    |dt|o| |]; simpl.
  - destruct (Map_get attemptId (attempts s)); [discriminate|].
    intros [= <-]. pose proof (sendEmail_throws email attemptId s) as Hw.
    unfold wpx in Hw.
    destruct (sendEmail email attemptId s) as [[r|msg] s']; simpl;
      [exact Hw | apply Hw].
  - intros [= <-]. split; reflexivity.
  - intros [= <-]. unfold off, modify. simpl.
    destruct (eventListeners s !! event); split; reflexivity.
  - intros [= <-]. split; reflexivity.
  - destruct (0 <=? dt); [|discriminate]. intros [= <-].
    split; reflexivity.
  - destruct (pc s) as [|at0 i p rest|at0 i t d|]; try discriminate.
    intros [= <-]. unfold guarded.
    eapply wp_snd; [apply wp_try_catch, afterSend_returns|]. auto.
  - destruct (pc s) as [|at0 i p rest|at0 i t d|]; try discriminate.
    destruct (t + d <=? clock s); [|discriminate].
    intros [= <-]. unfold guarded.
    eapply wp_snd; [apply wp_try_catch, afterBackoff_returns|]. auto.
  - destruct (pc s) as [|at0 i p rest|at0 i t d|]; try discriminate.
    intros [= <-].
    eapply wp_snd; [apply afterAttempt_returns|]. auto.
Qed.

Lemma reachable_setup ps cfg s :
  reachable ps cfg s -> config s = cfg /\ providers s = ps.
Proof.
  induction 1 as [now|s a s' _ [IH1 IH2] Hstep].
  - split; reflexivity.
  - destruct (step_setup _ _ _ Hstep) as [H1 H2]. split; congruence.
Qed.

(** ** Retry exhaustion *)

Section RetryExhaustion.
Variable answer : nat -> SendOutcome.
Hypothesis all_fail : forall n, is_success (answer n) = false.
Variables (k0 : string) (N maxA : Z).

Local Abbreviation fin := (finishes answer k0 N maxA).

Lemma finishes_eq (m m' : M unit) s s' :
  m s = m' s' -> fin m' s' -> fin m s.
Proof.
  intros E H n. destruct (H n) as (s0 & fuel & s1 & H1 & H2 & H3).
  exists s0, fuel, s1. rewrite E. auto.
Qed.

Lemma exhausted_finishes a s :
  Attempt.id a = k0 -> Attempt.maxAttempts a = maxA ->
  Attempt.attempts a = N -> fin (exhausted a) s.
Proof.
  intros Hid Hmax Hat n.
  eexists _, O, _. split; [|split].
  - unfold exhausted, bind, get, attempts_set, modify, suspend.
    rewrite emit_emitted. unfold log, modify. reflexivity.
  - reflexivity.
  - split; [reflexivity|]. eexists. simpl.
    split; [rewrite Hid; apply Map_get_set_eq|].
    simpl. repeat split; auto. apply last_snoc.
Qed.

Lemma tryProviders_skip p rest i a done s s1 :
  isCircuitBreakerOpen (name p) s = (Ret true, s1) ->
  tryProviders (p :: rest) i a done s =
    tryProviders rest i a done
      (set_logger
         (Logger_log (clock s1) WARN
            "Circuit breaker open, skipping provider"
            [("provider", LStr (name p));
             ("attemptId", LStr (Attempt.id a))] (logger s1)) s1).
Proof.
  intros H. cbn [tryProviders]. unfold bind at 1. rewrite H. reflexivity.
Qed.

Lemma tryProviders_send p rest i a done s s1 :
  isCircuitBreakerOpen (name p) s = (Ret false, s1) ->
  tryProviders (p :: rest) i a done s =
    (Ret tt,
     set_pc (AwaitSend a i p rest)
       (set_logger
          (Logger_log (clock s1) INFO "Attempting to send email"
             [("provider", LStr (name p)); ("attempt", LNum (i + 1));
              ("attemptId", LStr (Attempt.id a))] (logger s1)) s1)).
Proof.
  intros H. cbn [tryProviders]. unfold bind at 1. rewrite H. reflexivity.
Qed.

Lemma tryProviders_finishes i ps :
  (forall a1 s1,
     Attempt.id a1 = k0 -> Attempt.maxAttempts a1 = maxA ->
     Attempt.attempts a1 = i + 1 -> maxRetries (config s1) = N ->
     fin (afterRound i (forRounds (i + 1)) a1) s1) ->
  forall done,
  (forall a1 s1,
     Attempt.id a1 = k0 -> Attempt.maxAttempts a1 = maxA ->
     Attempt.attempts a1 = i + 1 -> maxRetries (config s1) = N ->
     fin (done a1) s1) ->
  forall a s,
  Attempt.id a = k0 -> Attempt.maxAttempts a = maxA ->
  Attempt.attempts a = i + 1 -> maxRetries (config s) = N ->
  fin (tryProviders ps i a done) s.
Proof.
  intros Hresume. induction ps as [|p rest IH];
    intros done Hdone a s Hid Hmax Hat Hcfg.
  - simpl. apply Hdone; assumption.
  - destruct (isCircuitBreakerOpen_frame (name p) s)
      as (open & L & B & Heq & _).
    destruct open.
    + eapply finishes_eq; [apply (tryProviders_skip _ _ _ _ _ _ _ Heq)|].
      apply IH; auto.
    + intros n. rewrite (tryProviders_send _ _ _ _ _ _ _ Heq).
      match goal with |- exists s0 fuel s', (_, ?st) = _ /\ _ =>
        set (s0 := st) end.
      assert (Hc0 : maxRetries (config s0) = N) by exact Hcfg.
      specialize (all_fail n).
      destruct (answer n) as [[|] mid|msg] eqn:Han; [discriminate| |].
      * (* resolved without success *)
        destruct (IH _ Hresume a s0 Hid Hmax Hat Hc0 (S n))
          as (s1 & fuel & s' & H1 & H2 & H3).
        exists s0, (S fuel), s'. split; [reflexivity|]. split; [|exact H3].
        cbn [complete]. change (pc s0) with (AwaitSend a i p rest).
        cbv iota. rewrite Han. cbn [afterSend]. rewrite H1. exact H2.
      * (* rejected *)
        destruct (recordProviderFailure_frame (name p)
                    (set_logger
                       (Logger_log (clock s0) ERROR
                          "Provider failed to send email"
                          [("provider", LStr (name p));
                           ("attemptId", LStr (Attempt.id a));
                           ("error", LStr msg)] (logger s0)) s0))
          as (L' & B' & Heq' & _).
        match type of Heq' with _ = (_, ?st) => set (s2 := st) in * end.
        set (a' := Attempt.with_error (Some msg) a).
        destruct (IH _ Hresume a'
                    (set_attempts
                       (Map_set (Attempt.id a') a' (attempts s2)) s2)
                    Hid Hmax Hat Hcfg (S n))
          as (s1 & fuel & s' & H1 & H2 & H3).
        exists s0, (S fuel), s'. split; [reflexivity|]. split; [|exact H3].
        cbn [complete]. change (pc s0) with (AwaitSend a i p rest).
        cbv iota. rewrite Han. cbn [afterSend].
        unfold bind at 1. unfold log at 1, modify at 1.
        unfold bind at 1. rewrite Heq'.
        unfold bind at 1. unfold attempts_set at 1, modify at 1.
        fold a'. rewrite H1. exact H2.
Qed.

Lemma afterRound_finishes i next a s :
  maxRetries (config s) = N ->
  (N - 1 <= i -> fin (next a) s) ->
  (i < N - 1 ->
   forall s1, maxRetries (config s1) = N -> fin (forRounds (i + 1) a) s1) ->
  fin (afterRound i next a) s.
Proof.
  intros Hcfg Hnext Hlater.
  destruct (Z_lt_le_dec i (N - 1)) as [Hlt|Hge].
  - intros n.
    destruct (afterRound_delay i next a s) as (s0 & E0 & Hpc & Hclk & Hc);
      [lia|].
    destruct (Hlater Hlt
                (set_clock
                   (Z.max (clock s0)
                      (clock s + backoffDelay (config s) i)) s0)
                (eq_trans (f_equal maxRetries Hc) Hcfg) n)
      as (s1 & fuel & s' & H1 & H2 & H3).
    exists s0, (S fuel), s'. split; [exact E0|]. split; [|exact H3].
    cbn [complete]. rewrite Hpc. unfold afterBackoff. rewrite H1.
    exact H2.
  - eapply finishes_eq; [apply afterRound_last; lia|]. apply Hnext, Hge.
Qed.

Lemma rounds_unfold remaining i a s :
  rounds (S remaining) i a s =
    let a' := Attempt.with_updatedAt (clock s)
                (Attempt.with_attempts (i + 1) a) in
    let s1 := emitted "attemptUpdated" a'
                (set_attempts (Map_set (Attempt.id a') a' (attempts s)) s) in
    tryProviders (providers s1) i a'
      (afterRound i (rounds remaining (i + 1))) s1.
Proof.
  cbn [rounds]. unfold bind at 1, get at 1.
  unfold bind at 1, attempts_set at 1, modify at 1.
  unfold bind at 1. rewrite emit_emitted. reflexivity.
Qed.

Lemma rounds_finishes remaining : forall i a s,
  remaining = Z.to_nat (N - i) -> 0 <= i <= N ->
  Attempt.id a = k0 -> Attempt.maxAttempts a = maxA ->
  Attempt.attempts a = i -> maxRetries (config s) = N ->
  fin (rounds remaining i a) s.
Proof.
  induction remaining as [|rem IH]; intros i a s Hrem Hi Hid Hmax Hat Hcfg.
  - simpl. apply exhausted_finishes; auto. lia.
  - assert (Hnext : forall a1 s1,
              Attempt.id a1 = k0 -> Attempt.maxAttempts a1 = maxA ->
              Attempt.attempts a1 = i + 1 -> maxRetries (config s1) = N ->
              fin (rounds rem (i + 1) a1) s1).
    { intros a1 s1 H1 H2 H3 H4. apply IH; auto; lia. }
    assert (Hfor : forall a1 s1,
              Attempt.id a1 = k0 -> Attempt.maxAttempts a1 = maxA ->
              Attempt.attempts a1 = i + 1 -> maxRetries (config s1) = N ->
              fin (forRounds (i + 1) a1) s1).
    { intros a1 s1 H1 H2 H3 H4. eapply finishes_eq; [|apply Hnext; eauto].
      unfold forRounds, bind, get. rewrite H4.
      replace (Z.to_nat (N - (i + 1))) with rem by lia. reflexivity. }
    eapply finishes_eq; [apply rounds_unfold|]. cbv zeta.
    apply tryProviders_finishes; auto.
    + intros a1 s1 H1 H2 H3 H4. apply afterRound_finishes; auto.
    + intros a1 s1 H1 H2 H3 H4. apply afterRound_finishes; auto.
Qed.

Lemma processEmailAttempt_finishes a s :
  0 <= N -> maxRetries (config s) = N ->
  Attempt.id a = k0 -> Attempt.maxAttempts a = maxA ->
  Attempt.attempts a = 0 ->
  fin (processEmailAttempt a) s.
Proof.
  intros HN Hcfg Hid Hmax Hat.
  set (a' := Attempt.with_status SENDING a).
  eapply (finishes_eq _
            (rounds (Z.to_nat (N - 0)) 0 a')
            _ (emitted "attemptUpdated" a'
                 (set_attempts (Map_set (Attempt.id a') a' (attempts s)) s))).
  - unfold processEmailAttempt. unfold bind at 1, attempts_set, modify.
    unfold bind at 1. rewrite emit_emitted.
    unfold forRounds, bind, get. simpl. rewrite Hcfg. reflexivity.
  - apply rounds_finishes; auto. lia.
Qed.
End RetryExhaustion.

(** [forRounds] is the [for] loop of the source from its test on: the body
    when [i < maxRetries], the code after the loop otherwise. *)
Lemma forRounds_loop i a s :
  forRounds i a s =
    if i <? maxRetries (config s)
    then rounds (S (Z.to_nat (maxRetries (config s) - (i + 1)))) i a s
    else exhausted a s.
Proof.
  unfold forRounds, bind, get.
  destruct (i <? maxRetries (config s)) eqn:E.
  - apply Z.ltb_lt in E.
    replace (Z.to_nat (maxRetries (config s) - i))
      with (S (Z.to_nat (maxRetries (config s) - (i + 1)))) by lia.
    reflexivity.
  - apply Z.ltb_ge in E.
    replace (Z.to_nat (maxRetries (config s) - i)) with O by lia.
    reflexivity.
Qed.

(** ** Deduplication *)

Lemma elem_Map_get {V} (m : list (string * V)) k v :
  NoDup (Map_keys m) -> (k, v) ∈ m -> Map_get k m = Some v.
Proof.
  induction m as [|[k0 v0] m IH]; simpl; intros Hnd Hin.
  - apply elem_of_nil in Hin. contradiction.
  - apply NoDup_cons in Hnd as [Hk0 Hnd].
    apply elem_of_cons in Hin as [[= -> ->]|Hin].
    + destruct (decide (k0 = k0)); congruence.
    + destruct (decide (k = k0)) as [->|]; [|auto].
      exfalso. apply Hk0. apply list_elem_of_fmap. exists (k0, v). auto.
Qed.

Lemma ledger_values_keys now m :
  ledger_ok now m -> map Attempt.id (Map_values m) = Map_keys m.
Proof.
  intros [Hnd Hids _ _]. unfold Map_values, Map_keys.
  rewrite map_map. apply map_ext_in. intros [k a] Hin. simpl.
  apply Hids, elem_Map_get; [exact Hnd|]. apply list_elem_of_In, Hin.
Qed.

Lemma ledger_values_NoDup now m : ledger_ok now m -> NoDup (Map_values m).
Proof.
  intros Hl. apply (NoDup_fmap_1 Attempt.id).
  change (NoDup (map Attempt.id (Map_values m))).
  rewrite (ledger_values_keys _ _ Hl). apply Hl.
Qed.

Lemma duplicate_unique now m email k1 a1 k2 a2 :
  ledger_ok now m ->
  Map_get k1 m = Some a1 -> Map_get k2 m = Some a2 ->
  is_duplicate now email a1 = true -> is_duplicate now email a2 = true ->
  k1 = k2 /\ a1 = a2.
Proof.
  intros Hl G1 G2 D1 D2.
  apply is_duplicate_true in D1 as ((T1 & S1 & B1) & F1 & W1).
  apply is_duplicate_true in D2 as ((T2 & S2 & B2) & F2 & W2).
  destruct (decide (k1 = k2)) as [->|Hne]; [split; congruence|].
  exfalso.
  assert (300000 <= Z.abs (Attempt.createdAt a1 - Attempt.createdAt a2)).
  { eapply (ledger_unique _ _ Hl); eauto. repeat split; congruence. }
  pose proof (ledger_past _ _ Hl _ _ G1).
  pose proof (ledger_past _ _ Hl _ _ G2).
  lia.
Qed.

Lemma find_unique {A} (P : A -> bool) l a :
  a ∈ l -> P a = true -> (forall x, x ∈ l -> P x = true -> x = a) ->
  find P l = Some a.
Proof.
  induction l as [|x l IH]; intros Hin HP Hu.
  - apply elem_of_nil in Hin. contradiction.
  - simpl. destruct (P x) eqn:Hx.
    + f_equal. apply Hu; [apply list_elem_of_here | exact Hx].
    + apply IH; auto.
      * apply elem_of_cons in Hin as [->|Hin]; [congruence | exact Hin].
      * intros y Hy. apply Hu, list_elem_of_further, Hy.
Qed.

Lemma filter_none {A} (P : A -> bool) l :
  (forall x, x ∈ l -> P x = false) -> List.filter P l = [].
Proof.
  induction l as [|x l IH]; intros H; simpl; [reflexivity|].
  rewrite (H x) by apply list_elem_of_here.
  apply IH. intros y Hy. apply H, list_elem_of_further, Hy.
Qed.

Lemma filter_unique {A} (P : A -> bool) l a :
  NoDup l -> a ∈ l -> P a = true ->
  (forall x, x ∈ l -> P x = true -> x = a) ->
  List.filter P l = [a].
Proof.
  induction l as [|x l IH]; intros Hnd Hin HP Hu.
  - apply elem_of_nil in Hin. contradiction.
  - apply NoDup_cons in Hnd as [Hx Hnd]. simpl.
    destruct (P x) eqn:Hpx.
    + assert (x = a) as -> by (apply Hu; [apply list_elem_of_here | auto]).
      f_equal. apply filter_none. intros y Hy.
      destruct (P y) eqn:Hpy; [|reflexivity].
      assert (y = a) by (apply Hu; [apply list_elem_of_further|]; auto).
      subst y. contradiction.
    + apply IH; auto.
      * apply elem_of_cons in Hin as [->|Hin]; [congruence | exact Hin].
      * intros y Hy. apply Hu, list_elem_of_further, Hy.
Qed.

(** In a state that satisfies the invariant, the scan finds the one
    duplicate there is. *)
Lemma find_duplicate s email k a :
  Inv s -> Map_get k (attempts s) = Some a ->
  is_duplicate (clock s) email a = true ->
  find (is_duplicate (clock s) email) (Map_values (attempts s)) = Some a /\
  List.filter (is_duplicate (clock s) email) (Map_values (attempts s)) = [a].
Proof.
  intros HI Hk Hd. pose proof (inv_ledger _ HI) as Hl.
  assert (Hu : forall x, x ∈ Map_values (attempts s) ->
            is_duplicate (clock s) email x = true -> x = a).
  { intros x Hx Hdx.
    destruct (Map_values_get _ _ (ledger_nodup _ _ Hl) Hx) as [kx Hkx].
    symmetry. eapply duplicate_unique; eauto. }
  split.
  - apply find_unique; auto. eapply Map_get_values; eauto.
  - apply filter_unique; auto.
    + eapply ledger_values_NoDup; eauto.
    + eapply Map_get_values; eauto.
Qed.

Lemma sendEmail_duplicate email attemptId s existing :
  find (is_duplicate (clock s) email) (Map_values (attempts s))
    = Some existing ->
  sendEmail email attemptId s =
    (Ret (Attempt.id existing),
     set_logger
       (Logger_log (clock s) WARN "Duplicate email detected"
          [("attemptId", LStr attemptId);
           ("existingId", LStr (Attempt.id existing))] (logger s)) s).
Proof.
  intros H. unfold sendEmail. unfold bind at 1.
  rewrite findExistingAttempt_run, H. reflexivity.
Qed.

(** ** Only a provider's success marks an attempt as sent *)

Lemma none_sent_refl m : none_sent m m.
Proof. split; auto. Qed.


Lemma none_sent_set m0 m k a :
  none_sent m0 m -> Attempt.status a <> SENT ->
  none_sent m0 (Map_set k a m).
Proof.
  intros [H K] Hs. split.
  - intros k' a'. rewrite Map_get_set.
    destruct (decide (k = k')); [intros [= <-]; contradiction | apply H].
  - intros k' Hk'. rewrite Map_get_set.
    destruct (decide (k = k')); [eauto | apply K, Hk'].
Qed.


Lemma exhausted_none_sent m0 a s :
  none_sent m0 (attempts s) ->
  wp (exhausted a) (fun _ s' => none_sent m0 (attempts s')) s.
Proof.
  intros H. unfold exhausted, suspend. repeat wp_step. simpl.
  apply none_sent_set; [exact H | discriminate].
Qed.

Lemma tryProviders_none_sent m0 ps i a done :
  (forall s', none_sent m0 (attempts s') ->
     wp (done a) (fun _ s'' => none_sent m0 (attempts s'')) s') ->
  forall s, none_sent m0 (attempts s) ->
  wp (tryProviders ps i a done) (fun _ s' => none_sent m0 (attempts s')) s.
Proof.
  intros Hdone. induction ps as [|p rest IH]; intros s H; simpl.
  - apply Hdone, H.
  - destruct (isCircuitBreakerOpen_frame (name p) s)
      as (open & L & B & Heq & _).
    eapply wp_bind_eq; [exact Heq|].
    destruct open.
    + wp_step. apply IH. exact H.
    + unfold suspend. repeat wp_step. exact H.
Qed.

Lemma afterRound_none_sent m0 i next a :
  (forall s, none_sent m0 (attempts s) ->
     wp (next a) (fun _ s' => none_sent m0 (attempts s')) s) ->
  forall s, none_sent m0 (attempts s) ->
  wp (afterRound i next a) (fun _ s' => none_sent m0 (attempts s')) s.
Proof.
  intros Hnext s H. unfold afterRound. wp_step.
  destruct (i <? maxRetries (config s) - 1).
  - unfold suspend. repeat wp_step. exact H.
  - apply Hnext, H.
Qed.

Lemma rounds_none_sent m0 remaining : forall i a s,
  Attempt.status a <> SENT ->
  none_sent m0 (attempts s) ->
  wp (rounds remaining i a) (fun _ s' => none_sent m0 (attempts s')) s.
Proof.
  induction remaining as [|rem IH]; intros i a s Ha H; cbn [rounds].
  - apply exhausted_none_sent, H.
  - repeat wp_step. apply tryProviders_none_sent.
    + intros s' H'. apply afterRound_none_sent; [|exact H'].
      intros s'' H''. apply IH; [exact Ha | exact H''].
    + simpl. apply none_sent_set; [exact H | exact Ha].
Qed.

Lemma processEmailAttempt_none_sent m0 a s :
  none_sent m0 (attempts s) ->
  wp (processEmailAttempt a) (fun _ s' => none_sent m0 (attempts s')) s.
Proof.
  intros H. unfold processEmailAttempt, forRounds. repeat wp_step.
  apply rounds_none_sent; [discriminate|].
  simpl. apply none_sent_set; [exact H | discriminate].
Qed.

Lemma drain_none_sent m0 q : forall s,
  none_sent m0 (attempts s) ->
  wp (drain q) (fun _ s' => none_sent m0 (attempts s')) s.
Proof.
  induction q as [|k q IH]; intros s H; cbn [drain].
  - unfold suspend. repeat wp_step. exact H.
  - repeat wp_step.
    destruct (Map_get k (attempts (set_queue q s))); [|apply IH; exact H].
    unfold guarded. apply wp_try_catch, processEmailAttempt_none_sent, H.
Qed.

Lemma processQueue_none_sent s :
  wp processQueue (fun _ s' => none_sent (attempts s) (attempts s')) s.
Proof.
  unfold processQueue. wp_step. destruct (processingQueue s).
  - apply wp_ret, none_sent_refl.
  - repeat wp_step. apply drain_none_sent, none_sent_refl.
Qed.

(** What [sendEmail] returns, and how it leaves the new attempt. *)
Lemma sendEmail_outcome email attemptId s :
  wpx (sendEmail email attemptId)
      (fun r s' =>
         (exists existing,
            find (is_duplicate (clock s) email) (Map_values (attempts s))
              = Some existing /\ r = Attempt.id existing) \/
         (find (is_duplicate (clock s) email) (Map_values (attempts s))
            = None /\
          fst (checkRateLimit s) = Ret true /\ r = attemptId /\
          exists a, Map_get attemptId (attempts s') = Some a /\
                    Attempt.status a <> SENT))
      (fun msg s' =>
         msg = "Rate limit exceeded. Please try again later." /\
         find (is_duplicate (clock s) email) (Map_values (attempts s))
           = None /\
         fst (checkRateLimit s) = Ret false /\
         queue s' = queue s /\ pc s' = pc s /\ clock s' = clock s /\
         processingQueue s' = processingQueue s /\
         exists a, Map_get attemptId (attempts s') = Some a /\
                   Attempt.email a = email /\
                   Attempt.status a = RATE_LIMITED /\
                   Attempt.error a = Some "Rate limit exceeded" /\
                   Attempt.createdAt a = clock s /\
                   Attempt.attempts a = 0) s.
Proof.
  unfold sendEmail.
  eapply wp_bind_eq; [apply findExistingAttempt_run|].
  destruct (find (is_duplicate (clock s) email) (Map_values (attempts s)))
    as [existing|] eqn:Hfind.
  - wp_step. apply wp_ret. left. eauto.
  - repeat wp_step.
    match goal with |- wpx (bind checkRateLimit _) _ _ ?s1 =>
      pose proof (checkRateLimit_fst s s1 eq_refl eq_refl eq_refl) as Hsame;
      destruct (checkRateLimit_frame s1) as (ok & R & Heq) end.
    eapply wp_bind_eq; [exact Heq|].
    rewrite Heq in Hsame. simpl in Hsame.
    destruct ok; cbn [negb].
    + repeat wp_step. apply wp_bind_wp, wp_try_catch.
      eapply wp_mono; [apply processQueue_none_sent|].
      intros [] s' [Hns Hkept]. apply wp_ret. right.
      split; [reflexivity|]. split; [auto|]. split; [reflexivity|].
      simpl in Hns, Hkept.
      destruct (Hkept attemptId) as [a Ha].
      { rewrite Map_get_set_eq. eauto. }
      exists a. split; [exact Ha|]. intros Hsent.
      specialize (Hns _ _ Ha Hsent). rewrite Map_get_set_eq in Hns.
      injection Hns as <-. discriminate.
    + repeat wp_step. apply wp_throw. simpl.
      repeat split; auto. eexists. rewrite Map_get_set_eq.
      split; [reflexivity|]. simpl. auto.
Qed.

(** ** A rejected attempt stays where it is *)

Lemma Inv_parked s k a :
  Inv s -> Map_get k (attempts s) = Some a ->
  Attempt.status a = RATE_LIMITED ->
  (k ∉ queue s) /\
  forall a', active (pc s) = Some a' -> Attempt.id a' <> k.
Proof.
  intros HI Hk Hst. split.
  - intros Hin. destruct (inv_queue _ HI) as [_ Hq].
    destruct (Hq k Hin) as (b & Hb & Hsb). congruence.
  - intros a' Ha' Hid.
    destruct (Inv_active_entry s a' HI Ha') as [Hent Hs].
    rewrite Hid in Hent. congruence.
Qed.

Lemma parked_forever s k a acts s' :
  Inv s -> Map_get k (attempts s) = Some a ->
  Attempt.status a = RATE_LIMITED ->
  run acts s = Some s' ->
  Inv s' /\ Map_get k (attempts s') = Some a /\
  (k ∉ queue s') /\
  forall a', active (pc s') = Some a' -> Attempt.id a' <> k.
Proof.
  intros HI Hk Hst Hrun.
  destruct (run_Inv acts s s' HI Hrun) as [HI' Hkeeps].
  assert (Hk' : Map_get k (attempts s') = Some a).
  { apply Hkeeps; [exact Hk | |]; rewrite Hst; discriminate. }
  split; [exact HI'|]. split; [exact Hk'|].
  eapply Inv_parked; eauto.
Qed.

Lemma sendEmail_step_Inv ps cfg s email attemptId :
  reachable ps cfg s -> Map_get attemptId (attempts s) = None ->
  reachable ps cfg (snd (sendEmail email attemptId s)) /\
  Inv (snd (sendEmail email attemptId s)).
Proof.
  intros Hr Hfresh.
  assert (Hs : step s (Call_sendEmail email attemptId)
                 (snd (sendEmail email attemptId s))).
  { unfold step. simpl. rewrite Hfresh. reflexivity. }
  assert (Hr' : reachable ps cfg (snd (sendEmail email attemptId s)))
    by (eapply reachable_step; eauto).
  split; [exact Hr' | eapply reachable_Inv; eauto].
Qed.

(** * The model on the scenarios of the test suite *)

Example fallback_to_second_provider :
  let s := after fallback testService in
  run fallback testService = Some s /\
  summary s "email_1" =
    Some (SENT, 1, Some "Provider2",
          Some "Provider1 provider failure: Network timeout") /\
  pc s = Idle /\ queue s = [] /\
  count (rateLimitState s) = 1 /\
  map fst (published s) =
    ["attemptCreated"; "attemptUpdated"; "attemptUpdated";
     "attemptUpdated"; "attemptUpdated"].
Proof. vm_compute. repeat split; reflexivity. Qed.

Example exhaustion_opens_breakers :
  let s := after tripBreakers testService in
  run tripBreakers testService = Some s /\
  summary s "email_1" =
    Some (FAILED, 3, None,
          Some "Provider2 provider failure: Network timeout") /\
  isOpen <$> (circuitBreakers s !! "Provider1") = Some true /\
  isOpen <$> (circuitBreakers s !! "Provider2") = Some true.
Proof. vm_compute. repeat split; reflexivity. Qed.

(** * The claims of the specification *)

(** ** C1: admission does not consume the rate limit *)

Lemma checkRateLimit_count s :
  count (rateLimitState (snd (checkRateLimit s))) =
    if resetTime (rateLimitState s) <=? clock s then 0
    else count (rateLimitState s).
Proof.
  rewrite checkRateLimit_run.
  destruct (resetTime (rateLimitState s) <=? clock s); reflexivity.
Qed.

Lemma afterSend_success_count mid a i p rest s :
  count (rateLimitState (snd (afterSend (Resolved true mid) a i p rest s)))
  = count (rateLimitState s) + 1.
Proof.
  apply (wp_snd (afterSend (Resolved true mid) a i p rest)
           (fun _ s' =>
              count (rateLimitState s') = count (rateLimitState s) + 1));
    [|auto].
  cbn [afterSend]. repeat wp_step.
  match goal with |- wpx (bind (recordProviderSuccess ?n) _) _ _ ?s1 =>
    destruct (recordProviderSuccess_frame n s1) as (B & Heq & _) end.
  eapply wp_bind_eq; [exact Heq|].
  unfold incrementRateLimit, suspend. repeat wp_step. reflexivity.
Qed.

(** C1 (the code departs from the claim).  [checkRateLimit] never
    increments the counter: it leaves it as it is, or resets it to 0 when
    the window has expired.  The counter is incremented in the success
    path of the dispatcher, once for each message sent.  So, in the test
    suite's burst of eleven distinct messages, submitted back to back to a
    service whose limit is ten per minute, every submission is let in,
    none is rejected, and the counter is still 0.  The claim, and the test
    "should enforce rate limits", have the counter consumed at submission
    and the eleventh submission rejected. *)
Theorem rate_limit_burst_all_accepted :
  (forall s,
     count (rateLimitState (snd (checkRateLimit s))) =
       if resetTime (rateLimitState s) <=? clock s then 0
       else count (rateLimitState s)) /\
  (forall mid a i p rest s,
     count (rateLimitState
              (snd (afterSend (Resolved true mid) a i p rest s)))
     = count (rateLimitState s) + 1) /\
  fst (submitAll burst testService) =
    map (fun m => Ret (snd m)) burst /\
  length burst = 11%nat /\
  rateLimitPerMinute (config testService) = 10 /\
  count (rateLimitState (snd (submitAll burst testService))) = 0 /\
  Forall (fun ka => Attempt.status (snd ka) <> RATE_LIMITED)
    (attempts (snd (submitAll burst testService))).
Proof.
  split; [exact checkRateLimit_count|].
  split; [exact afterSend_success_count|].
  vm_compute. repeat split; try reflexivity.
  repeat constructor; discriminate.
Qed.

(** ** C2: deduplication *)

(** C2 fails as stated.  On the one-shot service a message is submitted,
    its delivery fails, and the message is submitted again; both
    submissions happen at time 0.  The ledger then holds the attempt
    [email_2], which the scan accepts, and a third submission of the
    message returns [email_2] without touching ledger or queue; but
    the ledger holds two attempts for that recipient, subject and body
    created within the window, not one: the failed [email_1] is still
    there. *)
Lemma dedup_ledger_holds_failed_attempt :
  let s := after resubmission oneShotService in
  let m := testEmail "test@example.com" in
  run resubmission oneShotService = Some s /\
  (exists a, Map_get "email_2" (attempts s) = Some a /\
             is_duplicate (clock s) m a = true) /\
  fst (sendEmail m "email_3" s) = Ret "email_2" /\
  attempts (snd (sendEmail m "email_3" s)) = attempts s /\
  queue (snd (sendEmail m "email_3" s)) = queue s /\
  map (fun a => (Attempt.id a, Attempt.status a))
    (List.filter (same_message_in_window (clock s) m)
       (Map_values (attempts (snd (sendEmail m "email_3" s)))))
  = [("email_1", FAILED); ("email_2", SENDING)].
Proof.
  vm_compute. split; [reflexivity|]. split; [eexists; split; reflexivity|].
  repeat split; reflexivity.
Qed.

(** C2, amended.  In a reachable state, let the ledger hold an attempt
    for the same recipient, subject and body as the candidate message,
    whose status is not [FAILED] and which was created less than 300000 ms
    ago.  Then [sendEmail] returns the identity of that attempt, and
    leaves ledger, queue, dispatcher, events and rate limiter as they
    are; and that attempt is the only one in the ledger that the
    scan accepts: the only one for that message, within the window, that
    has not failed. *)
Theorem sendEmail_dedup ps cfg s email attemptId k a :
  reachable ps cfg s ->
  Map_get k (attempts s) = Some a ->
  same_message (Attempt.email a) email ->
  Attempt.status a <> FAILED ->
  clock s - Attempt.createdAt a < 300000 ->
  exists s',
    sendEmail email attemptId s = (Ret (Attempt.id a), s') /\
    Attempt.id a = k /\
    attempts s' = attempts s /\ queue s' = queue s /\ pc s' = pc s /\
    published s' = published s /\ rateLimitState s' = rateLimitState s /\
    List.filter (is_duplicate (clock s') email) (Map_values (attempts s'))
      = [a].
Proof.
  intros Hr Hk Hm Hst Hw.
  pose proof (reachable_Inv _ _ _ Hr) as HI.
  assert (Hd : is_duplicate (clock s) email a = true)
    by (apply is_duplicate_true; auto).
  destruct (find_duplicate s email k a HI Hk Hd) as [Hfind Hfilter].
  eexists. split; [apply sendEmail_duplicate, Hfind|]. simpl.
  split; [eapply ledger_ids; [apply HI | exact Hk]|].
  repeat split; auto.
Qed.

(** Witness of C2 (amended): the test "should prevent duplicate email
    sends". *)
Lemma sendEmail_dedup_witness :
  let m := testEmail "test@example.com" in
  let s := after [Call_sendEmail m "email_1"] testService in
  exists s',
    sendEmail m "email_2" s = (Ret "email_1", s') /\
    attempts s' = attempts s /\ queue s' = queue s /\
    length (attempts s') = 1%nat.
Proof.
  intros m s.
  assert (Hr : reachable [provider1; provider2] testConfig s).
  { eapply (run_reachable _ _ [Call_sendEmail m "email_1"]);
      [apply (reachable_new _ _ 0) | vm_compute; reflexivity]. }
  assert (Hk : exists a, Map_get "email_1" (attempts s) = Some a /\
                         Attempt.id a = "email_1" /\
                         same_message (Attempt.email a) m /\
                         Attempt.status a <> FAILED /\
                         clock s - Attempt.createdAt a < 300000).
  { vm_compute. eexists. split; [reflexivity|].
    repeat split; try reflexivity. discriminate. }
  destruct Hk as (a & Hk & Hid & Hm & Hst & Hw).
  destruct (sendEmail_dedup _ _ s m "email_2" "email_1" a Hr Hk Hm Hst Hw)
    as (s' & E & _ & E1 & E2 & _).
  exists s'. rewrite E, Hid, E1. repeat split; auto.
Defined.

(** ** C3: retry exhaustion *)



(** ** C4: transitions of a circuit breaker *)

(** C4.  For the breaker registered under [providerName]:
    [recordProviderSuccess] sets [failureCount] to 0, [isOpen] to false
    and clears the resume time; [recordProviderFailure] increments
    [failureCount] and, exactly when the new count reaches or exceeds the
    threshold, sets [isOpen] to true with the resume time at now plus the
    reset interval (below the threshold, [isOpen] and the resume time are
    left as they were).  Neither update, nor the dispatch check, changes
    the breaker of another provider name. *)
Theorem breaker_transitions providerName breaker s :
  circuitBreakers s !! providerName = Some breaker ->
  (exists s1,
     recordProviderSuccess providerName s = (Ret tt, s1) /\
     circuitBreakers s1 !! providerName =
       Some {| isOpen := false; failureCount := 0;
               lastFailureTime := None; halfOpenRetryTime := None |} /\
     forall other, other <> providerName ->
       circuitBreakers s1 !! other = circuitBreakers s !! other) /\
  (exists s2 breaker',
     recordProviderFailure providerName s = (Ret tt, s2) /\
     circuitBreakers s2 !! providerName = Some breaker' /\
     failureCount breaker' = failureCount breaker + 1 /\
     (circuitBreakerThreshold (config s) <= failureCount breaker' ->
      isOpen breaker' = true /\
      halfOpenRetryTime breaker' =
        Some (clock s + circuitBreakerResetTime (config s))) /\
     (failureCount breaker' < circuitBreakerThreshold (config s) ->
      isOpen breaker' = isOpen breaker /\
      halfOpenRetryTime breaker' = halfOpenRetryTime breaker) /\
     forall other, other <> providerName ->
       circuitBreakers s2 !! other = circuitBreakers s !! other) /\
  (exists open s3,
     isCircuitBreakerOpen providerName s = (Ret open, s3) /\
     forall other, other <> providerName ->
       circuitBreakers s3 !! other = circuitBreakers s !! other).
Proof.
  intros Hb. split; [|split].
  - eexists. split; [apply (recordProviderSuccess_present _ _ _ Hb)|].
    simpl. split; [apply lookup_insert_eq|].
    intros other Hne. apply lookup_insert_ne. congruence.
  - destruct (Z_lt_le_dec (failureCount breaker + 1)
                (circuitBreakerThreshold (config s))) as [Hlt|Hle].
    + eexists _, _.
      split; [apply (recordProviderFailure_below _ _ _ Hb Hlt)|].
      simpl. split; [apply lookup_insert_eq|]. simpl.
      split; [reflexivity|]. split; [lia|]. split; [auto|].
      intros other Hne. apply lookup_insert_ne. congruence.
    + eexists _, _.
      split; [apply (recordProviderFailure_opens _ _ _ Hb Hle)|].
      simpl. split; [apply lookup_insert_eq|]. simpl.
      split; [reflexivity|]. split; [auto|]. split; [lia|].
      intros other Hne. apply lookup_insert_ne. congruence.
  - destruct (isOpen breaker) eqn:Ho.
    + destruct (halfOpenRetryTime breaker) as [t|] eqn:Ht.
      * destruct (Z_lt_le_dec (clock s) t) as [Hlt|Hle].
        -- exists true, s. split; [|auto].
           apply (isCircuitBreakerOpen_blocked _ _ _ Hb).
           split; [exact Ho|]. rewrite Ht. exact Hlt.
        -- eexists false, _.
           split; [apply (isCircuitBreakerOpen_probe _ _ _ _ Hb Ho Ht Hle)|].
           simpl. intros other Hne. apply lookup_insert_ne. congruence.
      * exists true, s. split; [|auto].
        apply (isCircuitBreakerOpen_blocked _ _ _ Hb).
        split; [exact Ho|]. rewrite Ht. exact I.
    + exists false, s. split; [|auto].
      apply (isCircuitBreakerOpen_closed _ _ _ Hb Ho).
Qed.

(** Witness of C4: the second failure of Provider1 under the test
    configuration (threshold 2) opens its breaker until time 1000. *)
Lemma breaker_transitions_witness :
  circuitBreakers
    (snd (recordProviderFailure "Provider1" testService)) !! "Provider1" =
    Some {| isOpen := false; failureCount := 1;
            lastFailureTime := Some 0; halfOpenRetryTime := None |} /\
  exists s2 breaker',
    recordProviderFailure "Provider1"
      (snd (recordProviderFailure "Provider1" testService)) = (Ret tt, s2) /\
    circuitBreakers s2 !! "Provider1" = Some breaker' /\
    failureCount breaker' = 2 /\
    isOpen breaker' = true /\
    halfOpenRetryTime breaker' = Some 1000.
Proof.
  assert (H : circuitBreakers
            (snd (recordProviderFailure "Provider1" testService))
            !! "Provider1" =
            Some {| isOpen := false; failureCount := 1;
                    lastFailureTime := Some 0; halfOpenRetryTime := None |})
    by (vm_compute; reflexivity).
  split; [exact H|].
  destruct (breaker_transitions _ _ _ H)
    as (_ & (s2 & b' & E1 & E2 & E3 & E4 & _) & _).
  exists s2, b'. split; [exact E1|]. split; [exact E2|].
  split; [exact E3|]. apply E4. rewrite E3. vm_compute. discriminate.
Defined.

(** ** C5: the dispatcher honours the breakers *)



(** ** C6: rejection by the rate limit *)

(** C6.  In a reachable state, for a message that is not a duplicate and
    a fresh identity: when [checkRateLimit] denies admission, [sendEmail]
    throws the rate-limit error, having recorded the attempt with status
    [RATE_LIMITED] (no delivery round counted), and leaves queue and
    dispatcher as they are; whatever happens afterwards, that entry stays
    as it is, is never in the queue and is never the attempt the
    dispatcher works on.  When admission is granted, [sendEmail] returns
    the identity, and at that moment the attempt is in the ledger and is
    not [SENT]: the delivery is not awaited. *)
Theorem rate_limit_rejection ps cfg s email attemptId :
  reachable ps cfg s ->
  Map_get attemptId (attempts s) = None ->
  findExistingAttempt email s = (Ret None, s) ->
  (fst (checkRateLimit s) = Ret false ->
   exists s' a,
     sendEmail email attemptId s =
       (Throw "Rate limit exceeded. Please try again later.", s') /\
     Map_get attemptId (attempts s') = Some a /\
     Attempt.email a = email /\
     Attempt.status a = RATE_LIMITED /\
     Attempt.error a = Some "Rate limit exceeded" /\
     Attempt.attempts a = 0 /\
     queue s' = queue s /\ pc s' = pc s /\
     forall acts s'',
       run acts s' = Some s'' ->
       Map_get attemptId (attempts s'') = Some a /\
       (attemptId ∉ queue s'') /\
       forall a', active (pc s'') = Some a' -> Attempt.id a' <> attemptId) /\
  (fst (checkRateLimit s) = Ret true ->
   exists s' a,
     sendEmail email attemptId s = (Ret attemptId, s') /\
     Map_get attemptId (attempts s') = Some a /\
     Attempt.status a <> SENT).
Proof.
  intros Hr Hfresh Hnodup.
  rewrite findExistingAttempt_run in Hnodup. injection Hnodup as Hfind.
  destruct (sendEmail_step_Inv ps cfg s email attemptId Hr Hfresh)
    as [_ HI'].
  pose proof (sendEmail_outcome email attemptId s) as Hw.
  unfold wpx in Hw.
  destruct (sendEmail email attemptId s) as [[r|msg] s'] eqn:Heq;
    simpl in HI'.
  - destruct Hw as [(existing & He & _) | (_ & Hok & -> & a & Ha & Hs)];
      [congruence|].
    split; [intros Hno; congruence|].
    intros _. exists s', a. auto.
  - destruct Hw as (-> & _ & Hno & Hq & Hpc & _ & _ & a & Ha & Hem & Hst
                    & Herr & _ & Hat).
    split; [|intros Hok; congruence].
    intros _. exists s', a. repeat split; auto;
      destruct (parked_forever s' attemptId a acts s'' HI' Ha Hst H)
        as (_ & G1 & G2 & G3); auto.
Qed.

(** Witness of C6: a service whose limit is 0 messages per minute. *)
Lemma rate_limit_rejection_witness :
  exists s' a,
    sendEmail (testEmail "test@example.com") "email_1" noQuotaService =
      (Throw "Rate limit exceeded. Please try again later.", s') /\
    Map_get "email_1" (attempts s') = Some a /\
    Attempt.status a = RATE_LIMITED /\
    queue s' = [].
Proof.
  destruct (rate_limit_rejection [provider1; provider2] noQuotaConfig
              noQuotaService (testEmail "test@example.com") "email_1")
    as [H _].
  - apply (reachable_new _ _ 0).
  - reflexivity.
  - reflexivity.
  - destruct H as (s' & a & E & Ha & _ & Hst & _ & _ & Hq & _).
    + vm_compute. reflexivity.
    + exists s', a. rewrite Hq. auto.
Defined.

(** ** C7: exponential backoff *)



(** ** C8: the events of an attempt *)

Lemma Inv_in_flight s a :
  Inv s -> active (pc s) = Some a -> exists i, in_flight s a i.
Proof.
  intros [_ _ _ _ Hpc] Ha. unfold pc_ok in Hpc.
  destruct (pc s) as [|a' i p rest|a' i t d|]; try discriminate;
    injection Ha as ->; exists i; apply Hpc.
Qed.




(** ** C9: a failing listener is isolated *)

(** Without the [try ... catch] of [emit], the first listener that throws
    would end the iteration and the error would reach the caller. *)
Example uncaught_listener_error :
  let bad := {| lid := 0; handler := fun _ => Some "boom" |} in
  let good := {| lid := 1; handler := fun _ => None |} in
  let d := Attempt.with_status SENDING
             {| Attempt.id := "email_0"; Attempt.email := testEmail "a";
                Attempt.status := QUEUED; Attempt.attempts := 0;
                Attempt.maxAttempts := 3; Attempt.createdAt := 0;
                Attempt.updatedAt := 0; Attempt.sentAt := None;
                Attempt.messageId := None; Attempt.provider := None;
                Attempt.error := None |} in
  let r := forEach [bad; good]
             (fun l => call_listener "attemptUpdated" l d) testService in
  fst r = Throw "boom" /\ map (fun c => fst (fst c)) (delivered (snd r)) = [0%nat].
Proof. vm_compute. split; reflexivity. Qed.


(** ** C10: a rejected attempt answers later submissions *)

(** C10.  Let a submission be rejected with the rate-limit error.  The
    rejected attempt is in the ledger with status [RATE_LIMITED], which is
    not [FAILED].  After any run of the service that ends less than
    300000 ms after the rejection, the attempt is still there unchanged,
    the scan of [findExistingAttempt] accepts it for every message with
    that recipient, subject and body, and a submission of such a message
    returns the identity of the rejected attempt: it throws nothing and
    changes neither ledger nor queue nor dispatcher.  All along, the
    rejected attempt is not in the queue and is not the attempt the
    dispatcher works on, so no provider is ever called for it. *)
Theorem rejected_attempt_answers_resubmission
    ps cfg s email attemptId msg s1 :
  reachable ps cfg s ->
  Map_get attemptId (attempts s) = None ->
  sendEmail email attemptId s = (Throw msg, s1) ->
  exists a,
    Map_get attemptId (attempts s1) = Some a /\
    Attempt.status a = RATE_LIMITED /\
    Attempt.status a <> FAILED /\
    forall acts s2,
      run acts s1 = Some s2 ->
      Map_get attemptId (attempts s2) = Some a /\
      (attemptId ∉ queue s2) /\
      (forall a', active (pc s2) = Some a' -> Attempt.id a' <> attemptId) /\
      forall email' attemptId',
        same_message email email' ->
        clock s2 - clock s < 300000 ->
        is_duplicate (clock s2) email' a = true /\
        exists s3,
          sendEmail email' attemptId' s2 = (Ret attemptId, s3) /\
          attempts s3 = attempts s2 /\ queue s3 = queue s2 /\
          pc s3 = pc s2.
Proof.
  intros Hr Hfresh Heq.
  destruct (sendEmail_step_Inv ps cfg s email attemptId Hr Hfresh)
    as [_ HI1].
  pose proof (sendEmail_outcome email attemptId s) as Hw.
  unfold wpx in Hw. rewrite Heq in Hw, HI1. simpl in HI1.
  destruct Hw as (_ & _ & _ & _ & _ & _ & _ & a & Ha & Hem & Hst & _
                  & Hcr & _).
  exists a. split; [exact Ha|]. split; [exact Hst|].
  split; [rewrite Hst; discriminate|].
  intros acts s2 Hrun.
  destruct (parked_forever s1 attemptId a acts s2 HI1 Ha Hst Hrun)
    as (HI2 & Ha2 & Hq2 & Hact2).
  split; [exact Ha2|]. split; [exact Hq2|]. split; [exact Hact2|].
  intros email' attemptId' (Hto & Hsub & Hbody) Hwin.
  assert (Hd : is_duplicate (clock s2) email' a = true).
  { apply is_duplicate_true. rewrite Hem, Hst, Hcr.
    repeat split; auto; discriminate. }
  split; [exact Hd|].
  destruct (find_duplicate s2 email' attemptId a HI2 Ha2 Hd) as [Hfind _].
  eexists. split; [rewrite (sendEmail_duplicate _ _ _ _ Hfind)|].
  - f_equal. f_equal. eapply ledger_ids; [apply HI2 | exact Ha2].
  - simpl. auto.
Qed.

(** Witness of C10: the first submission to the service without quota is
    rejected; two seconds and another client's submission later, the same
    message is answered with the identity of the rejected attempt. *)
Lemma rejected_attempt_answers_resubmission_witness :
  let m := testEmail "test@example.com" in
  let s1 := snd (sendEmail m "email_1" noQuotaService) in
  let s2 := after afterRejection s1 in
  fst (sendEmail m "email_1" noQuotaService) =
    Throw "Rate limit exceeded. Please try again later." /\
  run afterRejection s1 = Some s2 /\
  exists s3,
    sendEmail m "email_3" s2 = (Ret "email_1", s3) /\
    attempts s3 = attempts s2 /\ queue s3 = queue s2.
Proof.
  intros m s1 s2.
  assert (E : sendEmail m "email_1" noQuotaService =
              (Throw "Rate limit exceeded. Please try again later.", s1))
    by (vm_compute; reflexivity).
  assert (Hrun : run afterRejection s1 = Some s2)
    by (vm_compute; reflexivity).
  split; [rewrite E; reflexivity|]. split; [exact Hrun|].
  destruct (rejected_attempt_answers_resubmission
              [provider1; provider2] noQuotaConfig noQuotaService m
              "email_1" _ s1 (reachable_new _ _ 0) eq_refl E)
    as (a & _ & _ & _ & H).
  destruct (H afterRejection s2 Hrun) as (_ & _ & _ & H2).
  destruct (H2 m "email_3") as (_ & s3 & E3 & A3 & Q3 & _).
  - apply same_message_refl.
  - vm_compute. reflexivity.
  - exists s3. auto.
Defined.
